(** * Rock-paper-scissors on the Stretch robot: a shallow embedding

    The development follows [rock_paper_scissors.py].  Pure code
    ([Guestures.get_joint_values], [RockPaperScissors.determine_winner])
    becomes plain functions; code that drives the robot, the speech client,
    the terminal and the random generator becomes a computation in a small
    state-and-exception monad whose state records, in order, every call made
    to a collaborator. *)

From Stdlib Require Import String Ascii List Bool Arith ZArith Lia Floats.
From Stdlib Require Import Decimal DecimalString QArith_base.
Import ListNotations.
Close Scope Q_scope.

Local Open Scope string_scope.
Local Open Scope list_scope.

Set Implicit Arguments.
Set Warnings "-inexact-float".

(* ================================================================= *)
(** ** Joint values and gestures *)

(** [@dataclass class JointValues]: three Python floats. *)
Record JointValues : Type := mkJointValues {
  gripper : float;
  wrist_yaw : float;
  wrist_roll : float
}.

(** [class Guestures(Enum)]: four members, each with a string value. *)
Inductive Guestures : Type := RESET | ROCK | PAPER | SCISSORS.

Definition Guestures_value (g : Guestures) : string :=
  match g with
  | RESET => "reset"
  | ROCK => "rock"
  | PAPER => "paper"
  | SCISSORS => "scissors"
  end.

Definition Guestures_name (g : Guestures) : string :=
  match g with
  | RESET => "RESET"
  | ROCK => "ROCK"
  | PAPER => "PAPER"
  | SCISSORS => "SCISSORS"
  end.

Definition Guestures_members : list Guestures := [RESET; ROCK; PAPER; SCISSORS].

Definition Guestures_eqb (a b : Guestures) : bool :=
  match a, b with
  | RESET, RESET | ROCK, ROCK | PAPER, PAPER | SCISSORS, SCISSORS => true
  | _, _ => false
  end.

(** A Python [dict] literal keyed by enum members, as an association list in
    insertion order; subscripting a missing key is a [KeyError] ([None]). *)
Fixpoint dict_get {V : Type} (d : list (Guestures * V)) (k : Guestures) : option V :=
  match d with
  | [] => None
  | (k', v) :: rest => if Guestures_eqb k' k then Some v else dict_get rest k
  end.

(** [Guestures.get_joint_values]: the table is rebuilt on every call and then
    subscripted with [self]. *)
Definition get_joint_values (self : Guestures) : option JointValues :=
  let gestures : list (Guestures * JointValues) :=
    [ (RESET, mkJointValues 100.0 0.0 0.0);
      (ROCK, mkJointValues 0.0 0.0 0.0);
      (PAPER, mkJointValues 0.0 1.57 0.0);
      (SCISSORS, mkJointValues 100.0 0.0 1.57) ] in
  dict_get gestures self.

(** [Guestures[name]]: lookup of a member by its name. *)
Definition Guestures_getitem (name : string) : option Guestures :=
  find (fun g => String.eqb (Guestures_name g) name) Guestures_members.

(* ================================================================= *)
(** ** Moves and the winner *)

(** [self.valid_moves]. *)
Definition valid_moves : list string := ["rock"; "paper"; "scissors"].

(** [RockPaperScissors.determine_winner]: Python [==] on [str] is [String.eqb]. *)
Definition determine_winner (stretch_choice player_choice : string) : string :=
  if String.eqb stretch_choice player_choice then
    "It's a tie!"
  else if (String.eqb stretch_choice "rock" && String.eqb player_choice "scissors")
          || (String.eqb stretch_choice "paper" && String.eqb player_choice "rock")
          || (String.eqb stretch_choice "scissors" && String.eqb player_choice "paper")
  then "Stretch wins!"
  else "You win!".

(** [str.upper] on ASCII text (the only text the game upper-cases). *)
Definition ascii_upper (c : ascii) : ascii :=
  let n := nat_of_ascii c in
  if ((97 <=? n)%nat && (n <=? 122)%nat)%bool then ascii_of_nat (n - 32) else c.

Fixpoint upper (s : string) : string :=
  match s with
  | EmptyString => EmptyString
  | String c rest => String (ascii_upper c) (upper rest)
  end.

(** The three ordered pairs in which the robot's move beats the player's. *)
Definition robot_beats (r p : string) : Prop :=
  (r = "rock" /\ p = "scissors") \/
  (r = "paper" /\ p = "rock") \/
  (r = "scissors" /\ p = "paper").

(** All pairs of valid moves, and how many of them produce a given message. *)
Definition all_pairs : list (string * string) :=
  list_prod valid_moves valid_moves.

Definition count_result (msg : string) : nat :=
  length (filter (fun rp => String.eqb (determine_winner (fst rp) (snd rp)) msg) all_pairs).

(* ================================================================= *)
(** ** Collaborators: exceptions, calls and the world *)

(** The exceptions the program raises or lets through.  [ActuatorFault] and
    [SpeechFailure] stand for whatever [stretch_body] or [sound_play] raise:
    neither is a [click.ClickException] nor a [KeyboardInterrupt]. *)
Inductive exn : Type :=
| ClickException (message : string)
| KeyboardInterrupt
| KeyError (key : string)
| AttributeError (name : string)
| IndexError
| ActuatorFault
| SpeechFailure.

(** The argument of [click.echo]: text, with the options of [click.style]
    when the text went through it. *)
Record styled : Type := mkStyled {
  body : string;
  fg : option string;
  bold : bool
}.

Definition plain (text : string) : styled := mkStyled text None false.
Definition click_style (text fg : string) (bold : bool) : styled :=
  mkStyled text (Some fg) bold.

(** One constructor per call into a library; a call that returns a value
    carries the value it returned. *)
Inductive event : Type :=
| Popen (argv : list string)
| Getpgid
| Killpg
| Sleep (seconds : float)
| RclpyInit
| NodeCreate (name : string)
| SoundClientCreate
| RclpyShutdown
| Say (text : string)
| Echo (message : styled) (nl : bool)
| Prompt (text : string) (reply : string)
| RandomChoice (picked : string)
| RobotCreate
| RobotStartup (ok : bool)
| RobotStop
| GetJoint (name : string)
| LiftStatusPos (pos : float)
| LiftMoveBy (x_m : float)
| LiftMoveTo (x_m : float)
| WristYawMoveTo (x_r : float)
| WristRollMoveTo (x_r : float)
| EndOfArmMoveTo (joint : string) (x_r : float)
| PushCommand
| WaitCommand
| ThreadStart
| ThreadJoin.

(** The main thread, and the thread [move_arm_animation] starts for speech. *)
Inductive tid : Type := MainThread | SpeechThread.

(** A trace entry: a call that returned, or a call that raised. *)
Inductive entry : Type :=
| Done (t : tid) (ev : event)
| Failed (t : tid) (ev : event) (e : exn).

(** Everything the program does not decide, indexed by the number of calls
    made so far: which call of which thread raises what, how many steps the
    speech thread takes before the main thread's next call, the random
    generator, the lift encoder, the result of [startup] and what the player
    types. *)
Record env : Type := mkEnv {
  fault : tid -> nat -> event -> option exn;
  sched : nat -> nat;
  draw : nat -> nat;
  lift_pos : nat -> float;
  startup_ok : nat -> bool;
  typed : nat -> string
}.

(** The state: the calls so far (oldest first), what is left of the body of
    the running speech thread, and the attributes set on the game object by
    [init_robot]. *)
Record world : Type := mkWorld {
  trace : list entry;
  pending : list event;
  attrs : list string
}.

Definition clock (w : world) : nat := length (trace w).

Definition log (x : entry) (w : world) : world :=
  mkWorld (trace w ++ [x]) (pending w) (attrs w).

Inductive result (A : Type) : Type :=
| Ok (a : A)
| Raise (e : exn).
Arguments Ok {A} a.
Arguments Raise {A} e.

Definition M (A : Type) : Type := env -> world -> result A * world.

Definition ret {A : Type} (a : A) : M A := fun _ w => (Ok a, w).

Definition bind {A B : Type} (c : M A) (k : A -> M B) : M B :=
  fun E w =>
    match c E w with
    | (Ok a, w') => k a E w'
    | (Raise e, w') => (Raise e, w')
    end.

Definition raise {A : Type} (e : exn) : M A := fun _ w => (Raise e, w).

Declare Scope monad_scope.
Delimit Scope monad_scope with monad.
Notation "x <- c ;; k" := (bind c (fun x => k))
  (at level 61, c at next level, right associativity) : monad_scope.
Notation "c ;; k" := (bind c (fun _ => k))
  (at level 61, right associativity) : monad_scope.
Local Open Scope monad_scope.

(** The speech thread takes up to [k] steps of its body; an exception in the
    thread ends the thread and nothing else. *)
Fixpoint run_thread (k : nat) (E : env) (w : world) : world :=
  match k with
  | O => w
  | S k' =>
      match pending w with
      | [] => w
      | ev :: rest =>
          match fault E SpeechThread (clock w) ev with
          | Some e =>
              mkWorld (trace w ++ [Failed SpeechThread ev e]) [] (attrs w)
          | None =>
              run_thread k' E
                (mkWorld (trace w ++ [Done SpeechThread ev]) rest (attrs w))
          end
      end
  end.

(** A call of the main thread: the speech thread, if any, first takes the
    steps the schedule grants it; then the call returns or raises. *)
Definition perform {A : Type} (req : env -> nat -> event * A) : M A :=
  fun E w =>
    let w1 := run_thread (sched E (clock w)) E w in
    let (ev, a) := req E (clock w1) in
    match fault E MainThread (clock w1) ev with
    | Some e => (Raise e, log (Failed MainThread ev e) w1)
    | None => (Ok a, log (Done MainThread ev) w1)
    end.

Definition call (ev : event) : M unit := perform (fun _ _ => (ev, tt)).

(** [threading.Thread(target=..., args=...).start()] and [thread.join()]:
    [join] returns once the thread's body has run to its end. *)
Definition thread_start (body : list event) : M unit :=
  call ThreadStart ;;
  fun _ w => (Ok tt, mkWorld (trace w) (pending w ++ body) (attrs w)).

Definition thread_join : M unit :=
  fun E w =>
    let w1 := run_thread (sched E (clock w)) E w in
    match fault E MainThread (clock w1) ThreadJoin with
    | Some e => (Raise e, log (Failed MainThread ThreadJoin e) w1)
    | None =>
        let w2 := run_thread (length (pending w1)) E w1 in
        (Ok tt, log (Done MainThread ThreadJoin) w2)
    end.

(** Attributes of the game object: reading one that was never assigned
    raises [AttributeError]. *)
Definition set_attr (name : string) : M unit :=
  fun _ w => (Ok tt, mkWorld (trace w) (pending w) (name :: attrs w)).

Definition need_attr (name : string) : M unit :=
  fun _ w =>
    if existsb (String.eqb name) (attrs w) then (Ok tt, w)
    else (Raise (AttributeError name), w).

Definition of_option {A : Type} (e : exn) (o : option A) : M A :=
  match o with
  | Some a => ret a
  | None => raise e
  end.

Fixpoint for_each {A : Type} (xs : list A) (body : A -> M unit) : M unit :=
  match xs with
  | [] => ret tt
  | x :: rest => body x ;; for_each rest body
  end.

(** [try: ... except ...:]: [handler e] is the body of the clause that
    matches [e], if one does. *)
Definition try_except {A : Type} (c : M A) (handler : exn -> option (M A)) : M A :=
  fun E w =>
    match c E w with
    | (Ok a, w') => (Ok a, w')
    | (Raise e, w') =>
        match handler e with
        | Some h => h E w'
        | None => (Raise e, w')
        end
    end.

(** [try: ... finally: ...]: the clause runs on every way out, and an
    exception of its own replaces the outcome. *)
Definition try_finally {A : Type} (c : M A) (fin : M unit) : M A :=
  fun E w =>
    match c E w with
    | (r, w') =>
        match fin E w' with
        | (Ok _, w'') => (r, w'')
        | (Raise e, w'') => (Raise e, w'')
        end
    end.

(** [range(lo, hi)]. *)
Definition range (lo hi : Z) : list Z :=
  map (fun i => (lo + Z.of_nat i)%Z) (seq 0 (Z.to_nat (hi - lo))).

(** [str(n)] for an [int]. *)
Definition str_int (n : Z) : string := NilZero.string_of_int (Z.to_int n).

(** [float(n)] for a small non-negative [int]. *)
Definition float_of_nat (n : nat) : float :=
  PrimFloat.of_uint63 (Uint63.of_Z (Z.of_nat n)).

Definition LF : string := String "010" EmptyString.

(* ================================================================= *)
(** ** The game: [class RockPaperScissors] *)

Definition echo (message : styled) : M unit := call (Echo message true).

(** A call on [self.robot], [self.wrist_yaw] or [self.wrist_roll]. *)
Definition on_attr (name : string) (ev : event) : M unit :=
  need_attr name ;; call ev.

Definition robot_call (ev : event) : M unit := on_attr "robot" ev.

(** [random.choice(seq)]: [seq[randbelow(len(seq))]], [IndexError] on []. *)
Definition random_choice (xs : list string) : M string :=
  match xs with
  | [] => raise IndexError
  | _ :: _ =>
      perform (fun E n =>
        let x := nth (draw E n mod length xs) xs EmptyString in
        (RandomChoice x, x))
  end.

(** [click.prompt(text, type=click.Choice(...))]: the validated reply. *)
Definition click_prompt (text : string) : M string :=
  perform (fun E n => (Prompt text (typed E n), typed E n)).

(** [RockPaperScissors.__init__]. *)
Definition RockPaperScissors_init : M unit :=
  call RclpyInit ;;
  call (NodeCreate "rps_game") ;;
  call SoundClientCreate ;;
  call (Sleep 1).

(** [init_robot]. *)
Definition init_robot : M unit :=
  call RobotCreate ;;
  set_attr "robot" ;;
  need_attr "robot" ;;
  started <- perform (fun E n => (RobotStartup (startup_ok E n), startup_ok E n)) ;;
  if negb started then
    raise (ClickException "Failed to initialize the robot")
  else
    robot_call (GetJoint "wrist_yaw") ;;
    set_attr "wrist_yaw" ;;
    robot_call (GetJoint "wrist_roll") ;;
    set_attr "wrist_roll".

(** [cleanup]: a [Robot] object is truthy, so [if self.robot:] either raises
    [AttributeError] or takes the branch. *)
Definition cleanup : M unit :=
  need_attr "robot" ;;
  robot_call RobotStop ;;
  call RclpyShutdown.

(** [speak]: the two calls of its body, and the method run on the caller's
    thread. *)
Definition speak_body (text : string) : list event :=
  [ Say text;
    Sleep (PrimFloat.mul (float_of_nat (String.length text)) 0.1) ].

Definition speak (text : string) : M unit := for_each (speak_body text) call.

(** [move_arm_animation]. *)
Definition move_arm_animation (word : string) : M unit :=
  need_attr "robot" ;;
  current_height <- perform (fun E n => (LiftStatusPos (lift_pos E n), lift_pos E n)) ;;
  let up_distance := 0.1%float in
  robot_call (LiftMoveBy up_distance) ;;
  robot_call PushCommand ;;
  thread_start (speak_body word) ;;
  call (Sleep 0.5) ;;
  robot_call (LiftMoveTo current_height) ;;
  robot_call PushCommand ;;
  call (Sleep 0.5) ;;
  thread_join.

(** [make_gesture]. *)
Definition make_gesture (gesture : Guestures) : M unit :=
  joint_values <- of_option (KeyError (Guestures_name gesture))
                    (get_joint_values gesture) ;;
  on_attr "wrist_yaw" (WristYawMoveTo (wrist_yaw joint_values)) ;;
  on_attr "wrist_roll" (WristRollMoveTo (wrist_roll joint_values)) ;;
  robot_call PushCommand ;;
  call (Sleep 1) ;;
  robot_call (EndOfArmMoveTo "stretch_gripper" (gripper joint_values)) ;;
  robot_call PushCommand ;;
  call (Sleep 1).

(** The words of the countdown, and the loop over them in [play_round]. *)
Definition countdown_words : list string := ["Rock"; "Paper"; "Scissors"].

Definition countdown (words : list string) : M unit :=
  for_each words (fun word =>
    call (Echo (plain (word ++ "...")) false) ;;
    move_arm_animation word).

(** [play_round]. *)
Definition play_round : M string :=
  stretch_choice <- random_choice valid_moves ;;
  speak "Let's play!" ;;
  echo (plain (LF ++ "Get ready...")) ;;
  call (Sleep 1) ;;
  countdown countdown_words ;;
  speak "Shoot!" ;;
  echo (plain ("Shoot!" ++ LF)) ;;
  gesture <- of_option (KeyError (upper stretch_choice))
               (Guestures_getitem (upper stretch_choice)) ;;
  make_gesture gesture ;;
  echo (click_style ("stretch played: " ++ stretch_choice) "blue" false) ;;
  speak ("I choose " ++ stretch_choice) ;;
  ret stretch_choice.

(* ================================================================= *)
(** ** The [play] command *)

(** The body of the [for round_num in range(1, rounds + 1)] loop. *)
Definition play_cycle (rounds round_num : Z) : M unit :=
  robot_call (LiftMoveTo 0.5) ;;
  robot_call PushCommand ;;
  robot_call WaitCommand ;;
  make_gesture RESET ;;
  (if (1 <? rounds)%Z then
     echo (click_style (LF ++ "Round " ++ str_int round_num) "green" true) ;;
     speak ("Round " ++ str_int round_num)
   else ret tt) ;;
  stretch_choice <- play_round ;;
  player_choice <- click_prompt "What did you play" ;;
  let result := determine_winner stretch_choice player_choice in
  echo (click_style (LF ++ result) "bright_green" true) ;;
  speak result.

(** The [try] suite. *)
Definition play_body (rounds : Z) : M unit :=
  init_robot ;;
  speak "Hello! I'm ready to play Rock Paper Scissors!" ;;
  for_each (range 1 (rounds + 1)) (play_cycle rounds) ;;
  (if (1 <? rounds)%Z then speak "Thanks for playing!" else ret tt).

(** The two [except] clauses. *)
Definition play_handler (e : exn) : option (M unit) :=
  match e with
  | ClickException message =>
      Some (echo (click_style ("Error: " ++ message) "red" true))
  | KeyboardInterrupt =>
      Some (echo (plain (LF ++ "Game interrupted by user")) ;;
            speak "Game interrupted. Goodbye!")
  | _ => None
  end.

(** The [finally] clause. *)
Definition play_teardown : M unit :=
  cleanup ;;
  call Getpgid ;;
  call Killpg.

(** [play]. *)
Definition play (rounds : Z) : M unit :=
  call (Popen ["ros2"; "run"; "sound_play"; "soundplay_node.py"]) ;;
  call (Sleep 2) ;;
  RockPaperScissors_init ;;
  try_finally (try_except (play_body rounds) play_handler) play_teardown.

(** The world in which the command starts. *)
Definition boot : world := mkWorld [] [] [].

(** An environment in which no call raises, the speech thread is only run by
    [join], the generator returns [pick], the lift reads [0.5], [startup]
    succeeds and the player types [reply]. *)
Definition calm (pick : nat) (reply : string) : env :=
  mkEnv (fun _ _ _ => None) (fun _ => 0) (fun _ => pick)
        (fun _ => 0.5%float) (fun _ => true) (fun _ => reply).

(* ================================================================= *)
(** ** Reading a trace *)

(** The calls of the main thread that returned, in order. *)
Definition main_call (x : entry) : option event :=
  match x with
  | Done MainThread ev => Some ev
  | _ => None
  end.

Fixpoint done_main (tr : list entry) : list event :=
  match tr with
  | [] => []
  | x :: rest =>
      match main_call x with
      | Some ev => ev :: done_main rest
      | None => done_main rest
      end
  end.

Definition event_of (x : entry) : event :=
  match x with
  | Done _ ev => ev
  | Failed _ ev _ => ev
  end.

Definition by_main (evs : list event) : list entry := map (Done MainThread) evs.
Definition by_speech (evs : list event) : list entry := map (Done SpeechThread) evs.

(** [interleaved xs ys zs]: [zs] merges [xs] and [ys], keeping the order of
    each. *)
Inductive interleaved {A : Type} : list A -> list A -> list A -> Prop :=
| interleaved_nil : interleaved [] [] []
| interleaved_left x xs ys zs :
    interleaved xs ys zs -> interleaved (x :: xs) ys (x :: zs)
| interleaved_right y xs ys zs :
    interleaved xs ys zs -> interleaved xs (y :: ys) (y :: zs).

(** Environments: no call raises at all, or none on the main thread. *)
Definition quiet (E : env) : Prop := forall t n ev, fault E t n ev = None.
Definition main_quiet (E : env) : Prop := forall n ev, fault E MainThread n ev = None.

(** The attributes [init_robot] leaves on the game object. *)
Definition has_attr (name : string) (a : list string) : bool :=
  existsb (String.eqb name) a.

Definition ready (a : list string) : Prop :=
  has_attr "robot" a = true /\
  has_attr "wrist_yaw" a = true /\
  has_attr "wrist_roll" a = true.

Definition robot_attrs : list string := ["wrist_roll"; "wrist_yaw"; "robot"].

(** Modelled from the spec: the actuator driver of [stretch_body], which is
    not part of this repository.  A [move_to] or [move_by] only queues a
    target; [push_command] flushes everything queued since the last flush as
    one batch.  [batches] lists the flushed batches of a sequence of calls. *)
Definition is_target (ev : event) : bool :=
  match ev with
  | LiftMoveBy _ | LiftMoveTo _ | WristYawMoveTo _ | WristRollMoveTo _
  | EndOfArmMoveTo _ _ => true
  | _ => false
  end.

Fixpoint batches_from (queued : list event) (calls : list event) : list (list event) :=
  match calls with
  | [] => []
  | PushCommand :: rest => queued :: batches_from [] rest
  | ev :: rest =>
      if is_target ev then batches_from (queued ++ [ev]) rest
      else batches_from queued rest
  end.

Definition batches (calls : list event) : list (list event) := batches_from [] calls.

(** The lift command of the last flushed batch that has one. *)
Definition is_lift (ev : event) : bool :=
  match ev with
  | LiftMoveBy _ | LiftMoveTo _ => true
  | _ => false
  end.

Definition lift_goal (calls : list event) : option event :=
  last (map Some (filter is_lift (concat (batches calls)))) None.

(** The calls of one gesture commit, and of one lift bob with its word. *)
Definition gesture_calls (jv : JointValues) : list event :=
  [ WristYawMoveTo (wrist_yaw jv); WristRollMoveTo (wrist_roll jv); PushCommand;
    Sleep 1;
    EndOfArmMoveTo "stretch_gripper" (gripper jv); PushCommand; Sleep 1 ].

Definition bob_head (h : float) : list event :=
  [ LiftStatusPos h; LiftMoveBy 0.1; PushCommand; ThreadStart ].

Definition bob_tail (h : float) : list event :=
  [ Sleep 0.5; LiftMoveTo h; PushCommand; Sleep 0.5 ].

Definition bob_calls (h : float) : list event :=
  bob_head h ++ bob_tail h ++ [ThreadJoin].

(** The trace of one lift bob: the main thread reads the height [h], sends
    the lift up and starts the speech thread; its next four calls are merged
    with the thread's two in some order; [join] returns last. *)
Definition bob_step (word : string) (h : float) (seg : list entry) : Prop :=
  exists mid,
    seg = by_main (bob_head h) ++ mid ++ by_main [ThreadJoin] /\
    interleaved (by_main (bob_tail h)) (by_speech (speak_body word)) mid.

(** One step of the countdown: the word is echoed, then the lift bobs while
    the speech thread says the word. *)
Definition word_step (word : string) (seg : list entry) : Prop :=
  exists h bob,
    seg = Done MainThread (Echo (plain (word ++ "...")) false) :: bob /\
    bob_step word h bob.

(** The words said by the speech thread, in the order of the trace. *)
Fixpoint said (tr : list entry) : list string :=
  match tr with
  | [] => []
  | Done SpeechThread (Say text) :: rest => text :: said rest
  | _ :: rest => said rest
  end.

(** The trace of a round that chose [m] and committed the pose [jv], around
    the trace [cd] of its countdown. *)
Definition round_intro (m : string) : list event :=
  RandomChoice m :: speak_body "Let's play!"
  ++ [Echo (plain (LF ++ "Get ready...")) true; Sleep 1].

Definition round_outro (m : string) (jv : JointValues) : list event :=
  speak_body "Shoot!" ++ [Echo (plain ("Shoot!" ++ LF)) true]
  ++ gesture_calls jv
  ++ [Echo (click_style ("stretch played: " ++ m) "blue" false) true]
  ++ speak_body ("I choose " ++ m).

Definition round_shape (m : string) (seg : list entry) : Prop :=
  exists g jv segs,
    Guestures_getitem (upper m) = Some g /\
    Guestures_value g = m /\
    get_joint_values g = Some jv /\
    Forall2 word_step countdown_words segs /\
    seg = by_main (round_intro m) ++ concat segs ++ by_main (round_outro m jv).

(** The element [random.choice] returns for the draw [i]. *)
Definition picked (i : nat) : string :=
  nth (i mod length valid_moves) valid_moves EmptyString.

Definition is_choice (x : entry) : bool :=
  match event_of x with
  | RandomChoice _ => true
  | _ => false
  end.

(** [issues c full]: in every environment and from every world, the calls of
    the main thread that return while [c] runs are [full] when [c] returns,
    and a prefix of [full] when it raises; it leaves the attributes alone,
    and it raises only if a call of the main thread raises or an attribute
    of [init_robot] is missing. *)
Definition issues {A : Type} (c : M A) (full : list event) : Prop :=
  forall E w,
    attrs (snd (c E w)) = attrs w /\
    exists l,
      done_main (trace (snd (c E w))) = done_main (trace w) ++ l /\
      match fst (c E w) with
      | Ok _ => l = full
      | Raise _ => (exists rest, full = l ++ rest) /\ ~ (main_quiet E /\ ready (attrs w))
      end.

(** Successive lift bobs, the first starting when [n] calls have been made:
    each is a [bob_step] for the height read at its own start, and whatever
    came before, the lift command flushed last is the move back to that
    height. *)
Fixpoint bob_steps (E : env) (n : nat) (words : list string)
    (segs : list (list entry)) : Prop :=
  match words, segs with
  | [], [] => True
  | word :: words', seg :: segs' =>
      (bob_step word (lift_pos E n) seg /\
       done_main seg = bob_calls (lift_pos E n) /\
       forall before,
         lift_goal (before ++ done_main seg) = Some (LiftMoveTo (lift_pos E n))) /\
      bob_steps E (n + length seg) words' segs'
  | _, _ => False
  end.

(** The calls of a session around its cycles, and the trace of one cycle:
    the lift is sent to the pre-round height and flushed, the Reset pose is
    committed, the round is named when there are several, the round is
    played, the player is asked and the result announced. *)
Definition opening : list event :=
  [ Popen ["ros2"; "run"; "sound_play"; "soundplay_node.py"]; Sleep 2;
    RclpyInit; NodeCreate "rps_game"; SoundClientCreate; Sleep 1;
    RobotCreate; RobotStartup true; GetJoint "wrist_yaw"; GetJoint "wrist_roll" ]
  ++ speak_body "Hello! I'm ready to play Rock Paper Scissors!".

Definition teardown_calls : list event :=
  [ RobotStop; RclpyShutdown; Getpgid; Killpg ].

Definition closing (rounds : Z) : list event :=
  (if (1 <? rounds)%Z then speak_body "Thanks for playing!" else [])
  ++ teardown_calls.

Definition reset_calls : list event :=
  [ LiftMoveTo 0.5; PushCommand; WaitCommand ]
  ++ gesture_calls (mkJointValues 100.0 0.0 0.0).

Definition banner (rounds round_num : Z) : list event :=
  if (1 <? rounds)%Z then
    Echo (click_style (LF ++ "Round " ++ str_int round_num) "green" true) true
    :: speak_body ("Round " ++ str_int round_num)
  else [].

Definition verdict (m reply : string) : list event :=
  [ Prompt "What did you play" reply;
    Echo (click_style (LF ++ determine_winner m reply) "bright_green" true) true ]
  ++ speak_body (determine_winner m reply).

Definition cycle_shape (rounds round_num : Z) (c : list entry) : Prop :=
  exists m round reply,
    round_shape m round /\
    c = by_main (reset_calls ++ banner rounds round_num)
        ++ round ++ by_main (verdict m reply).

(* ================================================================= *)
(** ** Reading a trace in which calls may raise *)

Definition is_teardown (ev : event) : bool :=
  match ev with
  | RobotStop | RclpyShutdown | Getpgid | Killpg => true
  | _ => false
  end.

(** The calls of [speak], and those of the two [except] clauses. *)
Definition speech_call (ev : event) : bool :=
  match ev with
  | Say _ | Sleep _ => true
  | _ => false
  end.

Definition farewell_call (ev : event) : bool :=
  match ev with
  | Echo _ _ | Say _ | Sleep _ => true
  | _ => false
  end.

Definition not_teardown (ev : event) : bool := negb (is_teardown ev).

Definition main_failed (x : entry) : bool :=
  match x with
  | Failed MainThread _ _ => true
  | _ => false
  end.

Definition from_speech (x : entry) : bool :=
  match x with
  | Done SpeechThread ev | Failed SpeechThread ev _ => speech_call ev
  | _ => false
  end.

(** No call of the main thread raised in [seg]. *)
Definition clean (seg : list entry) : Prop :=
  forallb (fun x => negb (main_failed x)) seg = true.

(** How an outcome shows in the trace: a computation that returns has seen
    no call of the main thread raise; one that raises stopped at the call
    that raised, if a call did. *)
Definition unwinds {A : Type} (r : result A) (seg : list entry) : Prop :=
  match r with
  | Ok _ => clean seg
  | Raise _ =>
      clean seg \/
      exists s ev e, seg = s ++ [Failed MainThread ev e] /\ clean s
  end.

(** The speech thread, if there is one, only has calls of [speak] left. *)
Definition speechy (w : world) : Prop := forallb speech_call (pending w) = true.

(** [keeps P c]: in every environment, [c] only adds calls that satisfy [P]
    to the trace, never removes [self.robot], leaves the speech thread with
    calls of [speak] only, and unwinds as above. *)
Definition keeps (P : event -> bool) {A : Type} (c : M A) : Prop :=
  forall E w, speechy w ->
    exists seg,
      trace (snd (c E w)) = trace w ++ seg /\
      speechy (snd (c E w)) /\
      (has_attr "robot" (attrs w) = true ->
       has_attr "robot" (attrs (snd (c E w))) = true) /\
      forallb (fun x => P (event_of x)) seg = true /\
      unwinds (fst (c E w)) seg.

(** The six calls made before the [try] statement is entered. *)
Definition setup_calls : list event :=
  [ Popen ["ros2"; "run"; "sound_play"; "soundplay_node.py"]; Sleep 2;
    RclpyInit; NodeCreate "rps_game"; SoundClientCreate; Sleep 1 ].

(** What may follow a call of the main thread that raised: the calls of an
    [except] clause, the calls of a speech thread still running, and the
    teardown. *)
Definition after_failure (x : entry) : bool :=
  farewell_call (event_of x) || is_teardown (event_of x).

Definition teardown_entry (x : entry) : bool := is_teardown (event_of x).

(** An environment for a session of three rounds in which the gripper call of
    the gesture commit of the second round raises [ActuatorFault], and one in
    which the player's interrupt lands in the [time.sleep(1)] that precedes
    the countdown of the second round. *)
Definition gripper_fault : env :=
  mkEnv (fun t n ev =>
           match t, ev with
           | MainThread, EndOfArmMoveTo _ _ =>
               if (100 <=? n)%nat then Some ActuatorFault else None
           | _, _ => None
           end)
        (fun _ => 1) (fun _ => 0) (fun _ => 0.5%float) (fun _ => true)
        (fun _ => "paper").

Definition interrupted : env :=
  mkEnv (fun t n ev =>
           match t, ev with
           | MainThread, Sleep _ =>
               if (n =? 100)%nat then Some KeyboardInterrupt else None
           | _, _ => None
           end)
        (fun _ => 1) (fun _ => 0) (fun _ => 0.5%float) (fun _ => true)
        (fun _ => "paper").

Definition count_choices (tr : list entry) : nat := length (filter is_choice tr).

(** An environment in which the sound client raises when the main thread
    says "Let's play!", and one in which it raises in every speech thread. *)
Definition mute : env :=
  mkEnv (fun t n ev =>
           match t, ev with
           | MainThread, Say text =>
               if String.eqb text "Let's play!" then Some SpeechFailure else None
           | _, _ => None
           end)
        (fun _ => 0) (fun _ => 0) (fun _ => 0.5%float) (fun _ => true)
        (fun _ => "rock").

Definition hoarse : env :=
  mkEnv (fun t n ev =>
           match t, ev with
           | SpeechThread, Say _ => Some SpeechFailure
           | _, _ => None
           end)
        (fun _ => 1) (fun _ => 0) (fun _ => 0.5%float) (fun _ => true)
        (fun _ => "rock").

(** An environment in which the constructor of the robot raises. *)
Definition no_robot : env :=
  mkEnv (fun t n ev =>
           match t, ev with
           | MainThread, RobotCreate => Some ActuatorFault
           | _, _ => None
           end)
        (fun _ => 0) (fun _ => 0) (fun _ => 0.5%float) (fun _ => true)
        (fun _ => "rock").

Definition says (text : string) (ev : event) : bool :=
  match ev with
  | Say t => String.eqb t text
  | _ => false
  end.

(* ================================================================= *)
(** ** Further definitions *)

(** [JointValues.to_dict]: a [dict] with [str] keys, in insertion order. *)
Definition to_dict (self : JointValues) : list (string * float) :=
  [ ("gripper", gripper self);
    ("wrist_yaw", wrist_yaw self);
    ("wrist_roll", wrist_roll self) ].

(** Subscripting a [dict] with [str] keys; [None] is a [KeyError]. *)
Fixpoint dict_item (d : list (string * float)) (key : string) : option float :=
  match d with
  | [] => None
  | (k, v) :: rest => if String.eqb k key then Some v else dict_item rest key
  end.

(** How many of the valid moves a move gets the message [msg] against. *)
Definition count_against (msg : string) (stretch_choice : string) : nat :=
  length (filter (fun p => String.eqb (determine_winner stretch_choice p) msg) valid_moves).

(** Which of the three joint values of a pose sit at the Reset value. *)
Definition pose_code (jv : JointValues) : bool * bool * bool :=
  (PrimFloat.eqb (gripper jv) 100.0,
   PrimFloat.eqb (wrist_yaw jv) 0.0,
   PrimFloat.eqb (wrist_roll jv) 0.0).

(** The world in which the [try] statement of [play] is entered. *)
Definition after_setup : world := mkWorld (by_main setup_calls) [] [].

(** The calls of the two [except] clauses. *)
Definition farewell_calls : list event :=
  Echo (plain (LF ++ "Game interrupted by user")) true
  :: speak_body "Game interrupted. Goodbye!".

Definition error_calls (message : string) : list event :=
  [ Echo (click_style ("Error: " ++ message) "red" true) true ].

(** An environment in which no call raises and [startup] returns [False]. *)
Definition stalled : env :=
  mkEnv (fun _ _ _ => None) (fun _ => 0) (fun _ => 0)
        (fun _ => 0.5%float) (fun _ => false) (fun _ => "rock").

(** The calls of the [except] clause that matches [e], if one does. *)
Definition handler_calls (e : exn) : list event :=
  match e with
  | ClickException message => error_calls message
  | KeyboardInterrupt => farewell_calls
  | _ => []
  end.

(** An environment in which the constructor of the robot raises once the
    [try] statement is entered. *)
Definition constructor_fault : env :=
  mkEnv (fun t n ev =>
           match t, ev with
           | MainThread, RobotCreate =>
               if (6 <=? n)%nat then Some ActuatorFault else None
           | _, _ => None
           end)
        (fun _ => 0) (fun _ => 0) (fun _ => 0.5%float) (fun _ => true)
        (fun _ => "rock").

(** An environment in which [robot.stop] raises. *)
Definition stop_fault : env :=
  mkEnv (fun t n ev =>
           match t, ev with
           | MainThread, RobotStop => Some ActuatorFault
           | _, _ => None
           end)
        (fun _ => 0) (fun _ => 0) (fun _ => 0.5%float) (fun _ => true)
        (fun _ => "rock").

(** An environment in which, from the fifth call on, every [time.sleep] of
    the main thread is interrupted, and the speech thread only runs when it
    is joined. *)
Definition restless : env :=
  mkEnv (fun t n ev =>
           match t, ev with
           | MainThread, Sleep _ =>
               if (4 <=? n)%nat then Some KeyboardInterrupt else None
           | _, _ => None
           end)
        (fun _ => 0) (fun _ => 0) (fun _ => 0.5%float) (fun _ => true)
        (fun _ => "rock").

(* ================================================================= *)
(** ** The distribution of the draw *)

(** Modelled from the documentation of Python's [random] module, which is
    not part of this repository: [random.choice(seq)] returns [seq[i]] for an
    index [i] drawn uniformly from [range(len(seq))].  [with_draw E i] is the
    environment [E] in which the generator returns the index [i];
    [outcomes] lists the equally likely indices of [random.choice] on
    [valid_moves]. *)
Definition with_draw (E : env) (i : nat) : env :=
  mkEnv (fault E) (sched E) (fun _ => i) (lift_pos E) (startup_ok E) (typed E).

Definition outcomes : list nat := seq 0 (length valid_moves).

(** Whether a round run from [w] returns the move [mv]. *)
Definition round_returns (E : env) (w : world) (mv : string) : bool :=
  match fst (play_round E w) with
  | Ok m => String.eqb m mv
  | Raise _ => false
  end.

(** The probability that the round returns [mv]: the share of the outcomes
    of the draw on which it does. *)
Definition favourable (E : env) (w : world) (mv : string) : nat :=
  length (filter (fun i => round_returns (with_draw E i) w mv) outcomes).

Definition chance (E : env) (w : world) (mv : string) : Q :=
  Qmake (Z.of_nat (favourable E w mv)) (Pos.of_nat (length outcomes)).

(* ================================================================= *)
(** ** Where a failed call shows in the trace *)

(** [blames r seg]: the outcome [r] of a computation that added [seg] to the
    trace.  If it returned, no call of the main thread raised; if it raised
    [e], either no call of the main thread raised (the exception is the
    program's own), or the last entry of [seg] is the call that raised [e],
    and no call raised before it. *)
Definition blames {A : Type} (r : result A) (seg : list entry) : Prop :=
  match r with
  | Ok _ => clean seg
  | Raise e =>
      clean seg \/
      exists s ev, seg = s ++ [Failed MainThread ev e] /\ clean s
  end.

Definition accountable {A : Type} (c : M A) : Prop :=
  forall E w,
    exists seg,
      trace (snd (c E w)) = trace w ++ seg /\ blames (fst (c E w)) seg.

(** [stops_at_failure c]: in every environment and from every world, if a
    call of the main thread raises [e] while [c] runs, then [c] raises [e]
    and that call is the last entry [c] adds to the trace. *)
Definition stops_at_failure {A : Type} (c : M A) : Prop :=
  forall E w pre ev e post,
    trace (snd (c E w)) = trace w ++ pre ++ Failed MainThread ev e :: post ->
    fst (c E w) = Raise e /\ post = [].

(** Environments in which the sound client raises when the main thread says
    "Shoot!", and when it says the result of a round. *)
Definition fails_on (text : string) : env :=
  mkEnv (fun t n ev =>
           match t, ev with
           | MainThread, Say said_text =>
               if String.eqb said_text text then Some SpeechFailure else None
           | _, _ => None
           end)
        (fun _ => 1) (fun _ => 0) (fun _ => 0.5%float) (fun _ => true)
        (fun _ => "paper").



Unset Implicit Arguments.

(* ================================================================= *)
(** ** The winner *)

Lemma determine_winner_tie (s : string) : determine_winner s s = "It's a tie!".
Proof. unfold determine_winner. now rewrite String.eqb_refl. Qed.

Lemma robot_beats_dec (r p : string) :
  ((String.eqb r "rock" && String.eqb p "scissors")
   || (String.eqb r "paper" && String.eqb p "rock")
   || (String.eqb r "scissors" && String.eqb p "paper"))%bool = true
  <-> robot_beats r p.
Proof.
  unfold robot_beats.
  rewrite !orb_true_iff, !andb_true_iff, !String.eqb_eq. tauto.
Qed.

Lemma robot_beats_neq (r p : string) : robot_beats r p -> r <> p.
Proof. intros [[-> ->] | [[-> ->] | [-> ->]]]; discriminate. Qed.

Lemma determine_winner_cases (r p : string) :
  (r = p /\ determine_winner r p = "It's a tie!") \/
  (r <> p /\ robot_beats r p /\ determine_winner r p = "Stretch wins!") \/
  (r <> p /\ ~ robot_beats r p /\ determine_winner r p = "You win!").
Proof.
  unfold determine_winner.
  destruct (String.eqb_spec r p) as [-> | Hne]; [now left | right].
  destruct (_ || _)%bool eqn:Hb.
  - left. apply robot_beats_dec in Hb. auto.
  - right. repeat split; auto. intro H. apply robot_beats_dec in H. congruence.
Qed.

(** C1: on the nine pairs of valid moves the result is the tie message
    exactly when the moves are equal, the robot-wins message exactly on
    (rock, scissors), (paper, rock), (scissors, paper), the player-wins message
    exactly on the remaining pairs; the messages are three different strings
    and the nine pairs split three, three and three. *)
Theorem determine_winner_valid_moves (r p : string) :
  In r valid_moves -> In p valid_moves ->
  (determine_winner r p = "It's a tie!" <-> r = p) /\
  (determine_winner r p = "Stretch wins!" <-> robot_beats r p) /\
  (determine_winner r p = "You win!" <-> r <> p /\ ~ robot_beats r p) /\
  length all_pairs = 9 /\
  count_result "It's a tie!" = 3 /\
  count_result "Stretch wins!" = 3 /\
  count_result "You win!" = 3.
Proof.
  intros _ _.
  destruct (determine_winner_cases r p) as [[He Hd] | [[Hn [Hb Hd]] | [Hn [Hb Hd]]]];
    rewrite Hd; repeat split; try reflexivity; try discriminate; auto;
    try (intro H; exfalso; (congruence || tauto));
    try (intro H; exact (robot_beats_neq _ _ H));
    try (intros [? ?]; congruence).
  all: try (intro H; apply robot_beats_neq in H; congruence).
Qed.

Lemma determine_winner_valid_moves_witness :
  In "paper" valid_moves /\ In "rock" valid_moves /\
  determine_winner "paper" "rock" = "Stretch wins!".
Proof.
  assert (Hr : In "paper" valid_moves) by (simpl; auto).
  assert (Hp : In "rock" valid_moves) by (simpl; auto).
  split; [exact Hr |]. split; [exact Hp |].
  apply (proj2 (proj1 (proj2 (determine_winner_valid_moves "paper" "rock" Hr Hp)))).
  unfold robot_beats. auto.
Defined.

(** C10: the function is defined on every pair of strings, valid moves or
    not: equal strings give the tie message, and an unequal pair that is not
    one of the three robot-winning pairs gives the player-wins message. *)
Theorem determine_winner_any_strings (s t : string) :
  (s = t -> determine_winner s t = "It's a tie!") /\
  (s <> t -> ~ robot_beats s t -> determine_winner s t = "You win!") /\
  (determine_winner s t = "It's a tie!" \/
   determine_winner s t = "Stretch wins!" \/
   determine_winner s t = "You win!").
Proof.
  destruct (determine_winner_cases s t) as [[He Hd] | [[Hn [Hb Hd]] | [Hn [Hb Hd]]]];
    rewrite Hd; repeat split; auto; intros; congruence || tauto.
Qed.

Lemma determine_winner_any_strings_witness :
  determine_winner "lizard" "lizard" = "It's a tie!" /\
  determine_winner "lizard" "rock" = "You win!" /\
  determine_winner "rock" "spock" = "You win!".
Proof.
  split; [| split].
  - apply (proj1 (determine_winner_any_strings "lizard" "lizard")). reflexivity.
  - apply (proj1 (proj2 (determine_winner_any_strings "lizard" "rock"))).
    + discriminate.
    + unfold robot_beats. intros [[H _] | [[H _] | [H _]]]; discriminate H.
  - apply (proj1 (proj2 (determine_winner_any_strings "rock" "spock"))).
    + discriminate.
    + unfold robot_beats. intros [[_ H] | [[H _] | [H _]]]; discriminate H.
Defined.

(* ================================================================= *)
(** ** The pose table *)

Lemma get_joint_values_some (g : Guestures) :
  exists jv, get_joint_values g = Some jv.
Proof. destruct g; eexists; reflexivity. Qed.

(** C2: the lookup succeeds on each of the four gestures, its value is a
    function of the gesture alone (two lookups of one gesture agree), and the
    four values are those of the table. *)
Theorem get_joint_values_table :
  (forall g, exists jv, get_joint_values g = Some jv /\
     forall jv', get_joint_values g = Some jv' -> jv' = jv) /\
  get_joint_values RESET = Some (mkJointValues 100.0 0.0 0.0) /\
  get_joint_values ROCK = Some (mkJointValues 0.0 0.0 0.0) /\
  get_joint_values PAPER = Some (mkJointValues 0.0 1.57 0.0) /\
  get_joint_values SCISSORS = Some (mkJointValues 100.0 0.0 1.57).
Proof.
  split; [| repeat split; reflexivity].
  intro g. destruct (get_joint_values_some g) as [jv Hjv].
  exists jv. split; [exact Hjv |]. intros jv' H. congruence.
Qed.

(* ================================================================= *)
(** ** Running the monad *)

Lemma bind_ok {A B : Type} (c : M A) (k : A -> M B) E w a w' :
  c E w = (Ok a, w') -> bind c k E w = k a E w'.
Proof. unfold bind. now intros ->. Qed.

Lemma bind_raise {A B : Type} (c : M A) (k : A -> M B) E w e w' :
  c E w = (Raise e, w') -> bind c k E w = (Raise e, w').
Proof. unfold bind. now intros ->. Qed.

Arguments bind_ok {A B c} k {E w a w'} _.
Arguments bind_raise {A B c} k {E w e w'} _.

Lemma done_main_app (xs ys : list entry) :
  done_main (xs ++ ys) = done_main xs ++ done_main ys.
Proof.
  induction xs as [| x xs IH]; simpl; [reflexivity |].
  destruct (main_call x); simpl; now rewrite IH.
Qed.

Lemma done_main_by_main (evs : list event) : done_main (by_main evs) = evs.
Proof. induction evs; simpl; congruence. Qed.

Lemma done_main_by_speech (evs : list event) : done_main (by_speech evs) = [].
Proof. induction evs; simpl; congruence. Qed.

Lemma by_speech_app (xs ys : list event) :
  by_speech (xs ++ ys) = by_speech xs ++ by_speech ys.
Proof. apply map_app. Qed.

Lemma need_attr_ok (name : string) E w :
  has_attr name (attrs w) = true -> need_attr name E w = (Ok tt, w).
Proof. unfold need_attr, has_attr. now intros ->. Qed.

Lemma on_attr_ok (name : string) (ev : event) E w :
  has_attr name (attrs w) = true -> on_attr name ev E w = call ev E w.
Proof. intro H. unfold on_attr. now rewrite (bind_ok _ (need_attr_ok _ E w H)). Qed.

(** *** Interleavings *)

Lemma interleaved_only_right {A : Type} (ys : list A) : interleaved [] ys ys.
Proof. induction ys; constructor; auto. Qed.

Lemma interleaved_prepend {A : Type} (pre xs ys zs : list A) :
  interleaved xs ys zs -> interleaved xs (pre ++ ys) (pre ++ zs).
Proof. induction pre; simpl; auto. intro. constructor. auto. Qed.

Lemma interleaved_granted (k : nat) (p : list event) xs zs :
  interleaved xs (by_speech (skipn k p)) zs ->
  interleaved xs (by_speech p) (by_speech (firstn k p) ++ zs).
Proof.
  intro H. rewrite <- (firstn_skipn k p) at 1. rewrite by_speech_app.
  now apply interleaved_prepend.
Qed.

Lemma interleaved_length {A : Type} (xs ys zs : list A) :
  interleaved xs ys zs -> length zs = length xs + length ys.
Proof. induction 1; simpl; lia. Qed.

Lemma interleaved_done_main xs ys zs :
  interleaved (by_main xs) (by_speech ys) zs -> done_main zs = xs.
Proof.
  intro H. remember (by_main xs) as l eqn:Hl. remember (by_speech ys) as r eqn:Hr.
  revert xs ys Hl Hr.
  induction H as [| x l r zs H IH | y l r zs H IH]; intros xs ys Hl Hr.
  - destruct xs; [reflexivity | discriminate].
  - destruct xs as [| e xs]; [discriminate |]. injection Hl as -> ->.
    simpl. f_equal. eapply IH; eauto.
  - destruct ys as [| e ys]; [discriminate |]. injection Hr as -> ->.
    simpl. eapply IH; eauto.
Qed.

(* Bring both sides of an equation between traces to one shape. *)
Ltac flatten_app :=
  repeat (progress (repeat rewrite <- app_assoc; rewrite ?app_nil_r; simpl)).

(** *** Environments in which no call raises *)

Section Quiet.
Variable E : env.
Hypothesis HQ : quiet E.

Lemma run_thread_quiet (k : nat) : forall tr p a,
  run_thread k E (mkWorld tr p a)
  = mkWorld (tr ++ by_speech (firstn k p)) (skipn k p) a.
Proof.
  induction k as [| k IH]; intros tr p a; simpl.
  - now rewrite app_nil_r.
  - destruct p as [| ev rest]; simpl.
    + now rewrite app_nil_r.
    + rewrite HQ, IH. simpl. now rewrite <- app_assoc.
Qed.

Lemma perform_quiet {A : Type} (req : env -> nat -> event * A) tr p a :
  let k := sched E (length tr) in
  let tr1 := tr ++ by_speech (firstn k p) in
  perform req E (mkWorld tr p a)
  = (Ok (snd (req E (length tr1))),
     mkWorld (tr1 ++ [Done MainThread (fst (req E (length tr1)))]) (skipn k p) a).
Proof.
  intros k tr1. unfold perform, clock. simpl trace.
  rewrite run_thread_quiet. simpl trace. fold k. fold tr1.
  destruct (req E (length tr1)) as [ev x]. now rewrite HQ.
Qed.

Lemma perform_idle {A : Type} (req : env -> nat -> event * A) tr a :
  perform req E (mkWorld tr [] a)
  = (Ok (snd (req E (length tr))),
     mkWorld (tr ++ [Done MainThread (fst (req E (length tr)))]) [] a).
Proof.
  rewrite perform_quiet. rewrite firstn_nil, skipn_nil. simpl.
  now rewrite app_nil_r.
Qed.

Lemma call_quiet (ev : event) tr p a :
  call ev E (mkWorld tr p a)
  = (Ok tt,
     mkWorld (tr ++ by_speech (firstn (sched E (length tr)) p) ++ [Done MainThread ev])
             (skipn (sched E (length tr)) p) a).
Proof. unfold call. rewrite perform_quiet. simpl. now rewrite <- app_assoc. Qed.

Lemma call_idle (ev : event) tr a :
  call ev E (mkWorld tr [] a) = (Ok tt, mkWorld (tr ++ [Done MainThread ev]) [] a).
Proof. unfold call. now rewrite perform_idle. Qed.

Lemma on_attr_quiet (name : string) (ev : event) tr p a :
  has_attr name a = true ->
  on_attr name ev E (mkWorld tr p a)
  = (Ok tt,
     mkWorld (tr ++ by_speech (firstn (sched E (length tr)) p) ++ [Done MainThread ev])
             (skipn (sched E (length tr)) p) a).
Proof. intro H. rewrite on_attr_ok by exact H. apply call_quiet. Qed.

Lemma on_attr_idle (name : string) (ev : event) tr a :
  has_attr name a = true ->
  on_attr name ev E (mkWorld tr [] a)
  = (Ok tt, mkWorld (tr ++ [Done MainThread ev]) [] a).
Proof. intro H. rewrite on_attr_ok by exact H. apply call_idle. Qed.

Lemma thread_start_idle (body : list event) tr a :
  thread_start body E (mkWorld tr [] a)
  = (Ok tt, mkWorld (tr ++ [Done MainThread ThreadStart]) body a).
Proof.
  unfold thread_start. now rewrite (bind_ok _ (call_idle ThreadStart tr a)).
Qed.

Lemma thread_join_quiet tr p a :
  thread_join E (mkWorld tr p a)
  = (Ok tt, mkWorld (tr ++ by_speech p ++ [Done MainThread ThreadJoin]) [] a).
Proof.
  unfold thread_join, clock. rewrite run_thread_quiet. simpl trace. simpl pending.
  rewrite HQ. rewrite run_thread_quiet. unfold log. simpl.
  rewrite firstn_all, skipn_all.
  f_equal. f_equal.
  rewrite <- !app_assoc. f_equal. rewrite app_assoc. f_equal.
  rewrite <- by_speech_app. now rewrite firstn_skipn.
Qed.

Lemma for_each_call_idle (evs : list event) : forall tr a,
  for_each evs call E (mkWorld tr [] a) = (Ok tt, mkWorld (tr ++ by_main evs) [] a).
Proof.
  induction evs as [| ev evs IH]; intros tr a; simpl.
  - unfold ret. now rewrite app_nil_r.
  - rewrite (bind_ok _ (call_idle ev tr a)). rewrite IH.
    now rewrite <- app_assoc.
Qed.

Lemma speak_idle (text : string) tr a :
  speak text E (mkWorld tr [] a)
  = (Ok tt, mkWorld (tr ++ by_main (speak_body text)) [] a).
Proof. apply for_each_call_idle. Qed.

End Quiet.

(** *** The lift bob and the gesture commit when no call raises *)

Section QuietSteps.
Variable E : env.
Hypothesis HQ : quiet E.

Ltac run_with lem := erewrite bind_ok by (apply lem; auto).

(* Name the number of steps the schedule granted at the last call. *)
Ltac name_grant n :=
  match goal with
  | |- context [firstn (sched E ?c) _] => generalize (sched E c); intro n
  end.

Lemma move_arm_animation_quiet (word : string) tr a :
  has_attr "robot" a = true ->
  exists seg,
    move_arm_animation word E (mkWorld tr [] a) = (Ok tt, mkWorld (tr ++ seg) [] a) /\
    bob_step word (lift_pos E (length tr)) seg.
Proof.
  intro Ha. unfold move_arm_animation, robot_call.
  remember (speak_body word) as p0 eqn:Hp0.
  run_with need_attr_ok.
  run_with perform_idle. cbv beta iota zeta delta [fst snd].
  set (h := lift_pos E (length tr)).
  run_with on_attr_idle.
  run_with on_attr_idle.
  run_with thread_start_idle.
  run_with call_quiet. name_grant n1.
  run_with on_attr_quiet. name_grant n2.
  run_with on_attr_quiet. name_grant n3.
  run_with call_quiet. name_grant n4.
  rewrite thread_join_quiet by exact HQ.
  set (p1 := skipn n1 p0). set (p2 := skipn n2 p1).
  set (p3 := skipn n3 p2). set (p4 := skipn n4 p3).
  exists (by_main (bob_head h)
          ++ (by_speech (firstn n1 p0) ++ Done MainThread (Sleep 0.5)
              :: by_speech (firstn n2 p1) ++ Done MainThread (LiftMoveTo h)
              :: by_speech (firstn n3 p2) ++ Done MainThread PushCommand
              :: by_speech (firstn n4 p3) ++ Done MainThread (Sleep 0.5)
              :: by_speech p4)
          ++ by_main [ThreadJoin]).
  split.
  - f_equal. f_equal. unfold bob_head, by_main. cbn [map].
    flatten_app. reflexivity.
  - eexists. split; [reflexivity |].
    rewrite <- Hp0. unfold bob_tail, by_main. cbn [map].
    apply interleaved_granted. apply interleaved_left.
    apply interleaved_granted. apply interleaved_left.
    apply interleaved_granted. apply interleaved_left.
    apply interleaved_granted. apply interleaved_left.
    apply interleaved_only_right.
Qed.

Lemma make_gesture_quiet (g : Guestures) tr a :
  ready a ->
  exists jv,
    get_joint_values g = Some jv /\
    make_gesture g E (mkWorld tr [] a)
    = (Ok tt, mkWorld (tr ++ by_main (gesture_calls jv)) [] a).
Proof.
  intros (Hr & Hy & Hl).
  destruct (get_joint_values_some g) as [jv Hjv].
  exists jv. split; [exact Hjv |].
  unfold make_gesture, robot_call. rewrite Hjv. unfold of_option.
  rewrite (bind_ok _ (eq_refl : ret jv E _ = (Ok jv, _))).
  run_with on_attr_idle.
  run_with on_attr_idle.
  run_with on_attr_idle.
  run_with call_idle.
  run_with on_attr_idle.
  run_with on_attr_idle.
  rewrite call_idle by exact HQ.
  unfold gesture_calls, by_main. cbn [map]. flatten_app. reflexivity.
Qed.

End QuietSteps.

(** *** The countdown and the round when no call raises *)

Lemma picked_valid (i : nat) :
  In (picked i) valid_moves /\
  exists g, Guestures_getitem (upper (picked i)) = Some g /\
            Guestures_value g = picked i /\ g <> RESET.
Proof.
  unfold picked. simpl length.
  assert (H : i mod 3 < 3) by (apply Nat.mod_upper_bound; discriminate).
  destruct (i mod 3) as [| [| [| k]]]; [| | | lia]; simpl; split; auto.
  - exists ROCK. repeat split; discriminate.
  - exists PAPER. repeat split; discriminate.
  - exists SCISSORS. repeat split; discriminate.
Qed.

Lemma said_app (xs ys : list entry) : said (xs ++ ys) = said xs ++ said ys.
Proof.
  induction xs as [| x xs IH]; simpl; [reflexivity |].
  destruct x as [[|] ev | t ev e]; try destruct ev; simpl; now rewrite ?IH.
Qed.

Lemma said_by_main (evs : list event) : said (by_main evs) = [].
Proof. induction evs; simpl; auto. Qed.

Lemma said_interleaved (xs : list event) (word : string) zs :
  interleaved (by_main xs) (by_speech (speak_body word)) zs -> said zs = [word].
Proof.
  unfold speak_body, by_speech. simpl map.
  generalize (PrimFloat.mul (float_of_nat (String.length word)) 0.1).
  intros d H. set (nap := Sleep d) in *.
  remember (by_main xs) as l eqn:Hl.
  remember [Done SpeechThread (Say word); Done SpeechThread nap] as r eqn:Hr.
  assert (Hgen : forall l r zs, interleaved l r zs ->
            forall xs, l = by_main xs ->
            (r = [Done SpeechThread (Say word); Done SpeechThread nap] -> said zs = [word]) /\
            (r = [Done SpeechThread nap] -> said zs = []) /\
            (r = [] -> said zs = [])).
  { clear. induction 1 as [| x l r zs H IH | y l r zs H IH]; intros xs Hl.
    - repeat split; intros; discriminate || reflexivity.
    - destruct xs as [| e xs]; [discriminate |]. injection Hl as -> ->.
      destruct (IH xs eq_refl) as (H1 & H2 & H3).
      repeat split; intro Hr; simpl; auto.
    - destruct (IH xs Hl) as (H1 & H2 & H3).
      repeat split; intro Hr; try discriminate.
      + injection Hr as -> ->. simpl. f_equal. auto.
      + injection Hr as -> ->. simpl. auto. }
  subst r. eapply Hgen; eauto.
Qed.

Lemma said_word_step (word : string) seg : word_step word seg -> said seg = [word].
Proof.
  intros (h & bob & -> & mid & -> & Hmid). simpl.
  rewrite said_app. simpl. rewrite app_nil_r.
  eapply said_interleaved; eauto.
Qed.

Lemma said_countdown (words : list string) segs :
  Forall2 word_step words segs -> said (concat segs) = words.
Proof.
  induction 1 as [| word seg words segs H _ IH]; simpl; [reflexivity |].
  now rewrite said_app, (said_word_step _ _ H), IH.
Qed.

Section QuietRound.
Variable E : env.
Hypothesis HQ : quiet E.

Ltac run_with lem := erewrite bind_ok by (apply lem; auto).

Lemma countdown_quiet (words : list string) : forall tr a,
  has_attr "robot" a = true ->
  exists segs,
    countdown words E (mkWorld tr [] a) = (Ok tt, mkWorld (tr ++ concat segs) [] a) /\
    Forall2 word_step words segs.
Proof.
  induction words as [| word words IH]; intros tr a Ha.
  - exists []. split; [| constructor]. simpl. unfold ret. now rewrite app_nil_r.
  - unfold countdown. simpl for_each. fold (countdown words).
    destruct (move_arm_animation_quiet E HQ word
                (tr ++ [Done MainThread (Echo (plain (word ++ "...")) false)]) a Ha)
      as (bob & Hrun & Hbob).
    destruct (IH ((tr ++ [Done MainThread (Echo (plain (word ++ "...")) false)]) ++ bob) a Ha)
      as (segs & Hrest & Hsegs).
    exists ((Done MainThread (Echo (plain (word ++ "...")) false) :: bob) :: segs).
    split.
    + assert (Hstep :
        (call (Echo (plain (word ++ "...")) false) ;; move_arm_animation word)
          E (mkWorld tr [] a)
        = (Ok tt,
           mkWorld ((tr ++ [Done MainThread (Echo (plain (word ++ "...")) false)]) ++ bob)
                   [] a))
        by (run_with call_idle; exact Hrun).
      rewrite (bind_ok _ Hstep). rewrite Hrest.
      simpl. flatten_app. reflexivity.
    + constructor; [| exact Hsegs]. eexists _, bob. split; [reflexivity | exact Hbob].
Qed.

Lemma make_gesture_idle (g : Guestures) (jv : JointValues) tr a :
  ready a -> get_joint_values g = Some jv ->
  make_gesture g E (mkWorld tr [] a)
  = (Ok tt, mkWorld (tr ++ by_main (gesture_calls jv)) [] a).
Proof.
  intros Hr Hjv. destruct (make_gesture_quiet E HQ g tr a Hr) as (jv' & Hjv' & Hrun).
  congruence.
Qed.

Lemma play_round_quiet tr a :
  ready a ->
  exists seg,
    play_round E (mkWorld tr [] a)
    = (Ok (picked (draw E (length tr))), mkWorld (tr ++ seg) [] a) /\
    round_shape (picked (draw E (length tr))) seg.
Proof.
  intros Hr. pose proof Hr as (Ha & _).
  destruct (picked_valid (draw E (length tr))) as (_ & g & Hg & Hv & _).
  destruct (get_joint_values_some g) as [jv Hjv].
  remember (picked (draw E (length tr))) as m eqn:Hm.
  unfold play_round, random_choice, valid_moves.
  run_with perform_idle. cbv beta iota zeta delta [fst snd].
  change (nth (draw E (length tr) mod length ["rock"; "paper"; "scissors"])
            ["rock"; "paper"; "scissors"] EmptyString)
    with (picked (draw E (length tr))).
  rewrite <- Hm.
  run_with speak_idle.
  run_with call_idle.
  run_with call_idle.
  match goal with
  | |- context [bind (countdown countdown_words) _ E (mkWorld ?t [] a)] =>
      destruct (countdown_quiet countdown_words t a Ha) as (segs & Hcd & Hsegs)
  end.
  rewrite (bind_ok _ Hcd).
  run_with speak_idle.
  run_with call_idle.
  rewrite Hg. unfold of_option at 1.
  rewrite (bind_ok _ (eq_refl : ret g E _ = (Ok g, _))).
  erewrite bind_ok by (apply make_gesture_idle; eauto).
  run_with call_idle.
  run_with speak_idle.
  exists (by_main (round_intro m) ++ concat segs ++ by_main (round_outro m jv)).
  split.
  - unfold ret. f_equal. f_equal.
    unfold round_intro, round_outro, by_main.
    rewrite !map_app. cbn [map]. flatten_app. reflexivity.
  - exists g, jv, segs. repeat split; auto.
Qed.

End QuietRound.

Lemma interleaved_filter_nil {A : Type} (P : A -> bool) (xs ys zs : list A) :
  interleaved xs ys zs -> filter P xs = [] -> filter P ys = [] -> filter P zs = [].
Proof.
  induction 1 as [| x xs ys zs H IH | y xs ys zs H IH]; simpl; auto.
  - destruct (P x); [discriminate | auto].
  - destruct (P y); [discriminate | auto].
Qed.

Lemma word_step_no_choice (word : string) seg :
  word_step word seg -> filter is_choice seg = [].
Proof.
  intros (h & bob & -> & mid & -> & Hmid). simpl.
  rewrite filter_app. simpl. rewrite app_nil_r.
  eapply interleaved_filter_nil; eauto.
Qed.

Lemma countdown_no_choice (words : list string) segs :
  Forall2 word_step words segs -> filter is_choice (concat segs) = [].
Proof.
  induction 1 as [| word seg words segs H _ IH]; simpl; [reflexivity |].
  now rewrite filter_app, (word_step_no_choice _ _ H), IH.
Qed.

Lemma round_shape_one_choice (m : string) seg :
  round_shape m seg ->
  hd_error seg = Some (Done MainThread (RandomChoice m)) /\
  length (filter is_choice seg) = 1.
Proof.
  intros (g & jv & segs & _ & _ & _ & Hsegs & ->). split; [reflexivity |].
  rewrite !filter_app, (countdown_no_choice _ _ Hsegs). reflexivity.
Qed.

Lemma round_shape_said (m : string) seg :
  round_shape m seg -> said seg = countdown_words.
Proof.
  intros (g & jv & segs & _ & _ & _ & Hsegs & ->).
  rewrite !said_app, !said_by_main, (said_countdown _ _ Hsegs).
  simpl. rewrite ?app_nil_r. reflexivity.
Qed.

(* ================================================================= *)
(** ** The countdown *)

(** C4: when no call raises, the countdown over any list of words runs one
    step per word, in the order of the list, duplicates included; each step's
    trace ends with the return of [join], after both calls of the speech
    thread, and the next step's trace starts only then.  The words said are
    the words supplied, and in a round they are Rock, Paper, Scissors. *)
Theorem countdown_in_order (words : list string) (E : env) tr a :
  quiet E -> ready a ->
  (exists segs,
     countdown words E (mkWorld tr [] a) = (Ok tt, mkWorld (tr ++ concat segs) [] a) /\
     Forall2 word_step words segs /\
     said (concat segs) = words) /\
  (exists m seg,
     play_round E (mkWorld tr [] a) = (Ok m, mkWorld (tr ++ seg) [] a) /\
     round_shape m seg /\
     said seg = ["Rock"; "Paper"; "Scissors"]).
Proof.
  intros HQ Hr. split.
  - destruct (countdown_quiet E HQ words tr a (proj1 Hr)) as (segs & Hrun & Hsegs).
    exists segs. repeat split; auto. now apply said_countdown.
  - destruct (play_round_quiet E HQ tr a Hr) as (seg & Hrun & Hshape).
    exists (picked (draw E (length tr))), seg. repeat split; auto.
    now apply round_shape_said in Hshape.
Qed.

Lemma calm_quiet (pick : nat) (reply : string) : quiet (calm pick reply).
Proof. intros t n ev. reflexivity. Qed.

Lemma robot_attrs_ready : ready robot_attrs.
Proof. repeat split. Qed.

Lemma countdown_in_order_witness :
  exists segs,
    countdown ["Paper"; "Paper"] (calm 0 "rock") (mkWorld [] [] robot_attrs)
    = (Ok tt, mkWorld ([] ++ concat segs) [] robot_attrs) /\
    Forall2 word_step ["Paper"; "Paper"] segs /\
    said (concat segs) = ["Paper"; "Paper"].
Proof.
  exact (proj1 (countdown_in_order ["Paper"; "Paper"] (calm 0 "rock") [] robot_attrs
                  (calm_quiet 0 "rock") robot_attrs_ready)).
Defined.

(* ================================================================= *)
(** ** The round *)

Lemma valid_moves_NoDup : NoDup valid_moves.
Proof.
  unfold valid_moves.
  repeat constructor; simpl; intuition discriminate.
Qed.

Lemma picked_onto (mv : string) :
  In mv valid_moves -> exists i, i < length valid_moves /\ picked i = mv.
Proof.
  simpl. intros [<- | [<- | [<- | []]]];
    [exists 0 | exists 1 | exists 2]; split; simpl; auto.
Qed.

Lemma valid_moves_in (P : string -> Prop) :
  P "rock" -> P "paper" -> P "scissors" -> forall m, In m valid_moves -> P m.
Proof. intros Hr Hp Hs m [<- | [<- | [<- | []]]]; assumption. Qed.

Lemma with_draw_quiet (E : env) (i : nat) : quiet E -> quiet (with_draw E i).
Proof. intros HQ t n ev. exact (HQ t n ev). Qed.

Lemma round_returns_quiet (E : env) (i : nat) tr a (mv : string) :
  quiet E -> ready a ->
  round_returns (with_draw E i) (mkWorld tr [] a) mv = String.eqb (picked i) mv.
Proof.
  intros HQ Hr. unfold round_returns.
  destruct (play_round_quiet (with_draw E i) (with_draw_quiet E i HQ) tr a Hr)
    as (seg & Hrun & _).
  rewrite Hrun. reflexivity.
Qed.

Lemma favourable_quiet (E : env) tr a (mv : string) :
  quiet E -> ready a -> In mv valid_moves ->
  favourable E (mkWorld tr [] a) mv = 1.
Proof.
  intros HQ Hr Hmv. unfold favourable.
  rewrite (filter_ext _ (fun i => String.eqb (picked i) mv)
             (fun i => round_returns_quiet E i tr a mv HQ Hr)).
  revert mv Hmv. apply valid_moves_in; reflexivity.
Qed.

(** C5: when no call raises, the round's first call is the draw; the move it
    returns is the element of [valid_moves] at the drawn index, an index
    below three reaches each of the three distinct moves, and no later call
    of the round draws again; the gesture committed, the text echoed, the
    sentence spoken and the value returned are all for that move.  The draw
    is uniform: of the three equally likely indices of [random.choice],
    exactly one makes the round return a given move, so the round returns
    each of rock, paper and scissors with probability one third. *)
Theorem play_round_move_fixed (E : env) tr a :
  quiet E -> ready a ->
  let m := picked (draw E (length tr)) in
  In m valid_moves /\
  NoDup valid_moves /\
  (forall mv, In mv valid_moves -> exists i, i < length valid_moves /\ picked i = mv) /\
  (exists seg,
     play_round E (mkWorld tr [] a) = (Ok m, mkWorld (tr ++ seg) [] a) /\
     round_shape m seg /\
     hd_error seg = Some (Done MainThread (RandomChoice m)) /\
     length (filter is_choice seg) = 1) /\
  (forall mv, In mv valid_moves ->
     favourable E (mkWorld tr [] a) mv = 1 /\
     chance E (mkWorld tr [] a) mv = Qmake 1 3).
Proof.
  intros HQ Hr m.
  split; [apply picked_valid |].
  split; [apply valid_moves_NoDup |].
  split; [apply picked_onto |].
  split.
  - destruct (play_round_quiet E HQ tr a Hr) as (seg & Hrun & Hshape).
    exists seg. split; [exact Hrun |]. split; [exact Hshape |].
    now apply round_shape_one_choice.
  - intros mv Hmv. pose proof (favourable_quiet E tr a mv HQ Hr Hmv) as Hfav.
    split; [exact Hfav |]. unfold chance. rewrite Hfav. reflexivity.
Qed.

Lemma play_round_move_fixed_witness :
  (exists seg,
     play_round (calm 2 "rock") (mkWorld [] [] robot_attrs)
     = (Ok "scissors", mkWorld ([] ++ seg) [] robot_attrs) /\
     round_shape "scissors" seg /\
     hd_error seg = Some (Done MainThread (RandomChoice "scissors")) /\
     length (filter is_choice seg) = 1) /\
  chance (calm 0 "rock") (mkWorld [] [] robot_attrs) "paper" = Qmake 1 3.
Proof.
  split.
  - exact (proj1 (proj2 (proj2 (proj2
      (play_round_move_fixed (calm 2 "rock") [] robot_attrs
         (calm_quiet 2 "rock") robot_attrs_ready))))).
  - apply (proj2 (proj2 (proj2 (proj2
      (play_round_move_fixed (calm 0 "rock") [] robot_attrs
         (calm_quiet 0 "rock") robot_attrs_ready))))).
    simpl. auto.
Defined.

(* ================================================================= *)
(** ** Any environment: what the main thread has issued *)

Lemma run_thread_attrs (k : nat) (E : env) : forall w,
  attrs (run_thread k E w) = attrs w.
Proof.
  induction k as [| k IH]; intro w; simpl; [reflexivity |].
  destruct (pending w) as [| ev rest]; [reflexivity |].
  destruct (fault E SpeechThread (clock w) ev); [reflexivity |].
  now rewrite IH.
Qed.

Lemma run_thread_done_main (k : nat) (E : env) : forall w,
  done_main (trace (run_thread k E w)) = done_main (trace w).
Proof.
  induction k as [| k IH]; intro w; simpl; [reflexivity |].
  destruct (pending w) as [| ev rest]; [reflexivity |].
  destruct (fault E SpeechThread (clock w) ev).
  - simpl. rewrite done_main_app. simpl. now rewrite app_nil_r.
  - rewrite IH. simpl. rewrite done_main_app. simpl. now rewrite app_nil_r.
Qed.

Lemma issues_ret {A : Type} (x : A) : issues (ret x) [].
Proof. intros E w. simpl. split; [reflexivity |]. exists []. now rewrite app_nil_r. Qed.

Lemma issues_need_attr (name : string) :
  In name ["robot"; "wrist_yaw"; "wrist_roll"] -> issues (need_attr name) [].
Proof.
  intros Hin E w. unfold need_attr.
  destruct (existsb (String.eqb name) (attrs w)) eqn:Hhas; simpl.
  - split; [reflexivity |]. exists []. now rewrite app_nil_r.
  - split; [reflexivity |]. exists []. rewrite app_nil_r.
    split; [reflexivity |]. split; [now exists [] |].
    intros (_ & Hr & Hy & Hl). unfold has_attr in *.
    destruct Hin as [<- | [<- | [<- | []]]]; congruence.
Qed.

Lemma issues_call (ev : event) : issues (call ev) [ev].
Proof.
  intros E w. unfold call, perform.
  set (w1 := run_thread (sched E (clock w)) E w).
  assert (Ha : attrs w1 = attrs w) by apply run_thread_attrs.
  assert (Hd : done_main (trace w1) = done_main (trace w)) by apply run_thread_done_main.
  destruct (fault E MainThread (clock w1) ev) as [e |] eqn:Hf; simpl.
  - split; [exact Ha |]. exists []. rewrite done_main_app, Hd. simpl.
    split; [reflexivity |]. split; [now exists [ev] |].
    intros (Hq & _). rewrite Hq in Hf. discriminate.
  - split; [exact Ha |]. exists [ev]. rewrite done_main_app, Hd. simpl.
    split; reflexivity.
Qed.

Lemma issues_bind {A B : Type} (c : M A) (k : A -> M B) (f1 f2 : list event) :
  issues c f1 -> (forall x, issues (k x) f2) -> issues (bind c k) (f1 ++ f2).
Proof.
  intros Hc Hk E w. unfold bind.
  destruct (Hc E w) as (Ha & l1 & Hd1 & Hr1).
  destruct (c E w) as [[x | e] w1]; simpl in *.
  - destruct (Hk x E w1) as (Ha2 & l2 & Hd2 & Hr2).
    split; [congruence |]. exists (l1 ++ l2).
    split; [rewrite Hd2, Hd1; now rewrite app_assoc |].
    destruct (fst (k x E w1)).
    + congruence.
    + destruct Hr2 as ((rest & ->) & Hn). subst l1. split.
      * exists rest. now rewrite app_assoc.
      * rewrite Ha in Hn. exact Hn.
  - split; [exact Ha |]. exists l1. split; [exact Hd1 |].
    destruct Hr1 as ((rest & ->) & Hn). split; [| exact Hn].
    exists (rest ++ f2). now rewrite app_assoc.
Qed.

Lemma issues_bind_one {A B : Type} (c : M A) (k : A -> M B) ev (f2 : list event) :
  issues c [ev] -> (forall x, issues (k x) f2) -> issues (bind c k) (ev :: f2).
Proof. intros Hc Hk. now apply (issues_bind c k [ev] f2). Qed.

Lemma issues_ret_bind {A B : Type} (x : A) (k : A -> M B) (f : list event) :
  issues (k x) f -> issues (bind (ret x) k) f.
Proof. intros H E w. exact (H E w). Qed.

Lemma issues_on_attr (name : string) (ev : event) :
  In name ["robot"; "wrist_yaw"; "wrist_roll"] -> issues (on_attr name ev) [ev].
Proof.
  intro Hin. unfold on_attr.
  apply (issues_bind (need_attr name) (fun _ => call ev) [] [ev]).
  - now apply issues_need_attr.
  - intros _. apply issues_call.
Qed.

Lemma issues_make_gesture (g : Guestures) (jv : JointValues) :
  get_joint_values g = Some jv -> issues (make_gesture g) (gesture_calls jv).
Proof.
  intro Hjv. unfold make_gesture, robot_call. rewrite Hjv. unfold of_option.
  apply issues_ret_bind. unfold gesture_calls.
  repeat (apply issues_bind_one;
          [first [apply issues_call | apply issues_on_attr; simpl; auto] | intros _]).
  apply issues_call.
Qed.

(* ================================================================= *)
(** ** The gesture commit *)

(** C3: for each of the four gestures, in every environment and from every
    world, the calls a gesture commit has made on the main thread are a
    prefix of: both wrist targets, one flush, a one-second sleep, the gripper
    target, one flush, a one-second sleep.  The first flush carries exactly
    the two wrist targets and the second the gripper target, so the gripper
    is flushed only after the wrist flush and its sleep; and the whole
    sequence is made whenever no call of the main thread raises. *)
Theorem make_gesture_wrist_then_gripper (g : Guestures) (E : env) (w : world) :
  exists jv,
    get_joint_values g = Some jv /\
    batches (gesture_calls jv)
    = [ [WristYawMoveTo (wrist_yaw jv); WristRollMoveTo (wrist_roll jv)];
        [EndOfArmMoveTo "stretch_gripper" (gripper jv)] ] /\
    (exists l rest,
       done_main (trace (snd (make_gesture g E w))) = done_main (trace w) ++ l /\
       gesture_calls jv = l ++ rest) /\
    (main_quiet E -> ready (attrs w) ->
     fst (make_gesture g E w) = Ok tt /\
     done_main (trace (snd (make_gesture g E w)))
     = done_main (trace w) ++ gesture_calls jv).
Proof.
  destruct (get_joint_values_some g) as [jv Hjv]. exists jv.
  split; [exact Hjv |]. split; [reflexivity |].
  destruct (issues_make_gesture g jv Hjv E w) as (_ & l & Hd & Hr).
  split.
  - destruct (fst (make_gesture g E w)).
    + exists l, []. subst l. now rewrite app_nil_r.
    + destruct Hr as ((rest & Hrest) & _). now exists l, rest.
  - intros HQ Hready. destruct (fst (make_gesture g E w)) as [[] | e].
    + subst l. auto.
    + destruct Hr as (_ & Hn). exfalso. apply Hn. auto.
Qed.

Lemma make_gesture_wrist_then_gripper_witness :
  fst (make_gesture SCISSORS (calm 0 "rock") (mkWorld [] [] robot_attrs)) = Ok tt /\
  done_main (trace (snd (make_gesture SCISSORS (calm 0 "rock") (mkWorld [] [] robot_attrs))))
  = [ WristYawMoveTo 0.0; WristRollMoveTo 1.57; PushCommand; Sleep 1;
      EndOfArmMoveTo "stretch_gripper" 100.0; PushCommand; Sleep 1 ].
Proof.
  destruct (make_gesture_wrist_then_gripper SCISSORS (calm 0 "rock")
              (mkWorld [] [] robot_attrs)) as (jv & Hjv & _ & _ & Hok).
  injection Hjv as <-.
  apply Hok.
  - intros n ev. reflexivity.
  - exact robot_attrs_ready.
Defined.

(* ================================================================= *)
(** ** The lift bob *)

Lemma batches_from_app (xs ys : list event) : forall q,
  exists q', batches_from q (xs ++ ys) = batches_from q xs ++ batches_from q' ys.
Proof.
  induction xs as [| ev xs IH]; intro q; simpl.
  - now exists q.
  - destruct ev; simpl;
      match goal with
      | |- context [batches_from ?q0 (xs ++ ys)] =>
          destruct (IH q0) as [q' ->]; exists q'; reflexivity
      end.
Qed.

Lemma lift_goal_after_bob (before : list event) (h : float) :
  lift_goal (before ++ bob_calls h) = Some (LiftMoveTo h).
Proof.
  unfold lift_goal, batches.
  destruct (batches_from_app before (bob_calls h) []) as [q' ->].
  simpl. rewrite concat_app, filter_app, map_app. simpl.
  rewrite filter_app, map_app. simpl.
  rewrite app_assoc. apply last_last.
Qed.

Lemma bob_step_done_main (word : string) (h : float) seg :
  bob_step word h seg -> done_main seg = bob_calls h.
Proof.
  intros (mid & -> & Hmid).
  rewrite !done_main_app, !done_main_by_main.
  now rewrite (interleaved_done_main _ _ _ Hmid).
Qed.

(** C9: when no call raises, each lift bob of a sequence of any words first
    reads the lift height, then sends the lift up by 0.1 and flushes, and
    after the half-second sleep sends it to the height it read and flushes;
    the lift command flushed last is that move back, whatever was flushed
    before the call.  The call leaves the attributes of the game object and
    the (empty) thread state as it found them, so the next call does the
    same from its own reading. *)
Theorem lift_bob_returns (words : list string) (E : env) tr a :
  quiet E -> has_attr "robot" a = true ->
  exists segs,
    for_each words move_arm_animation E (mkWorld tr [] a)
    = (Ok tt, mkWorld (tr ++ concat segs) [] a) /\
    bob_steps E (length tr) words segs.
Proof.
  intros HQ Ha. revert tr.
  induction words as [| word words IH]; intro tr.
  - exists []. simpl. unfold ret. now rewrite app_nil_r.
  - destruct (move_arm_animation_quiet E HQ word tr a Ha) as (seg & Hrun & Hseg).
    destruct (IH (tr ++ seg)) as (segs & Hrest & Hsegs).
    exists (seg :: segs). split.
    + simpl for_each. rewrite (bind_ok _ Hrun), Hrest.
      simpl. now rewrite <- app_assoc.
    + simpl. pose proof (bob_step_done_main _ _ _ Hseg) as Hd.
      repeat split; auto.
      * intros pre. rewrite Hd. apply lift_goal_after_bob.
      * rewrite <- length_app. exact Hsegs.
Qed.

Lemma lift_bob_returns_witness :
  exists segs,
    for_each ["Rock"; "Rock"] move_arm_animation (calm 0 "rock") (mkWorld [] [] robot_attrs)
    = (Ok tt, mkWorld ([] ++ concat segs) [] robot_attrs) /\
    bob_steps (calm 0 "rock") (length (@nil entry)) ["Rock"; "Rock"] segs.
Proof.
  apply (lift_bob_returns ["Rock"; "Rock"] (calm 0 "rock") [] robot_attrs).
  - apply calm_quiet.
  - reflexivity.
Defined.

(* ================================================================= *)
(** ** The session when no call raises *)

Lemma try_except_ok {A : Type} (c : M A) handler E w x w' :
  c E w = (Ok x, w') -> try_except c handler E w = (Ok x, w').
Proof. unfold try_except. now intros ->. Qed.

Lemma try_finally_ok {A : Type} (c : M A) (fin : M unit) E w r w' w'' :
  c E w = (r, w') -> fin E w' = (Ok tt, w'') -> try_finally c fin E w = (r, w'').
Proof. unfold try_finally. now intros -> ->. Qed.

Lemma set_attr_eq (name : string) E tr p a :
  set_attr name E (mkWorld tr p a) = (Ok tt, mkWorld tr p (name :: a)).
Proof. reflexivity. Qed.

Lemma range_length (lo hi : Z) : length (range lo hi) = Z.to_nat (hi - lo).
Proof. unfold range. now rewrite length_map, length_seq. Qed.

Section QuietSession.
Variable E : env.
Hypothesis HQ : quiet E.
Hypothesis Hstart : forall n, startup_ok E n = true.

Ltac run_with lem := erewrite bind_ok by (apply lem; auto).

Lemma init_robot_quiet tr :
  init_robot E (mkWorld tr [] [])
  = (Ok tt,
     mkWorld (tr ++ by_main [RobotCreate; RobotStartup true; GetJoint "wrist_yaw";
                             GetJoint "wrist_roll"]) [] robot_attrs).
Proof.
  unfold init_robot, robot_call.
  run_with call_idle.
  run_with set_attr_eq.
  erewrite bind_ok by (apply need_attr_ok; reflexivity).
  run_with perform_idle. cbv beta iota zeta delta [fst snd].
  rewrite !Hstart. change (negb true) with false. cbv iota.
  erewrite bind_ok by (apply on_attr_idle; [exact HQ | reflexivity]).
  run_with set_attr_eq.
  erewrite bind_ok by (apply on_attr_idle; [exact HQ | reflexivity]).
  rewrite set_attr_eq. unfold robot_attrs, by_main. cbn [map]. flatten_app. reflexivity.
Qed.

Lemma RockPaperScissors_init_quiet tr a :
  RockPaperScissors_init E (mkWorld tr [] a)
  = (Ok tt,
     mkWorld (tr ++ by_main [RclpyInit; NodeCreate "rps_game"; SoundClientCreate; Sleep 1])
             [] a).
Proof.
  unfold RockPaperScissors_init.
  run_with call_idle.
  run_with call_idle.
  run_with call_idle.
  rewrite call_idle by exact HQ.
  unfold by_main. cbn [map]. flatten_app. reflexivity.
Qed.

Lemma cleanup_quiet tr a :
  has_attr "robot" a = true ->
  cleanup E (mkWorld tr [] a)
  = (Ok tt, mkWorld (tr ++ by_main [RobotStop; RclpyShutdown]) [] a).
Proof.
  intro Ha. unfold cleanup, robot_call.
  run_with need_attr_ok.
  run_with on_attr_idle.
  rewrite call_idle by exact HQ.
  unfold by_main. cbn [map]. flatten_app. reflexivity.
Qed.

Lemma banner_quiet (rounds i : Z) tr a :
  (if (1 <? rounds)%Z then
     echo (click_style (LF ++ "Round " ++ str_int i) "green" true) ;;
     speak ("Round " ++ str_int i)
   else ret tt) E (mkWorld tr [] a)
  = (Ok tt, mkWorld (tr ++ by_main (banner rounds i)) [] a).
Proof.
  unfold banner. destruct (1 <? rounds)%Z.
  - run_with call_idle. rewrite speak_idle by exact HQ.
    simpl. flatten_app. reflexivity.
  - unfold ret. simpl. now rewrite app_nil_r.
Qed.

Lemma play_cycle_quiet (rounds i : Z) tr a :
  ready a ->
  exists c,
    play_cycle rounds i E (mkWorld tr [] a) = (Ok tt, mkWorld (tr ++ c) [] a) /\
    cycle_shape rounds i c.
Proof.
  intro Hr. pose proof Hr as (Ha & _).
  unfold play_cycle, robot_call.
  run_with on_attr_idle.
  run_with on_attr_idle.
  run_with on_attr_idle.
  erewrite bind_ok by (apply make_gesture_idle; [exact HQ | exact Hr | reflexivity]).
  erewrite bind_ok by (apply banner_quiet).
  match goal with
  | |- context [bind play_round _ E (mkWorld ?t [] a)] =>
      destruct (play_round_quiet E HQ t a Hr) as (round & Hround & Hshape);
      remember (picked (draw E (length t))) as m eqn:Hm
  end.
  rewrite (bind_ok _ Hround).
  unfold click_prompt.
  run_with perform_idle. cbv beta iota zeta delta [fst snd].
  match goal with
  | |- context [Prompt _ (typed E ?n)] => remember (typed E n) as reply eqn:Hreply
  end.
  run_with call_idle.
  rewrite speak_idle by exact HQ.
  exists (by_main (reset_calls ++ banner rounds i) ++ round ++ by_main (verdict m reply)).
  split.
  - f_equal. f_equal. unfold reset_calls, verdict, by_main.
    rewrite !map_app. cbn [map]. flatten_app. reflexivity.
  - exists m, round, reply. split; [exact Hshape | reflexivity].
Qed.

Lemma cycles_quiet (rounds : Z) (nums : list Z) : forall tr a,
  ready a ->
  exists cycles,
    for_each nums (play_cycle rounds) E (mkWorld tr [] a)
    = (Ok tt, mkWorld (tr ++ concat cycles) [] a) /\
    Forall2 (cycle_shape rounds) nums cycles.
Proof.
  induction nums as [| i nums IH]; intros tr a Hr.
  - exists []. split; [| constructor]. simpl. unfold ret. now rewrite app_nil_r.
  - destruct (play_cycle_quiet rounds i tr a Hr) as (c & Hrun & Hc).
    destruct (IH (tr ++ c) a Hr) as (cycles & Hrest & Hcycles).
    exists (c :: cycles). split; [| now constructor].
    simpl for_each. rewrite (bind_ok _ Hrun), Hrest.
    simpl. now rewrite <- app_assoc.
Qed.

Lemma play_quiet (rounds : Z) :
  exists cycles,
    play rounds E boot
    = (Ok tt,
       mkWorld (by_main opening ++ concat cycles ++ by_main (closing rounds))
               [] robot_attrs) /\
    Forall2 (cycle_shape rounds) (range 1 (rounds + 1)) cycles.
Proof.
  unfold play, boot.
  run_with call_idle.
  run_with call_idle.
  run_with RockPaperScissors_init_quiet.
  match goal with
  | |- context [try_finally _ _ E (mkWorld ?t [] [])] =>
      pose proof (init_robot_quiet t) as Hinit
  end.
  match type of Hinit with
  | _ = (_, mkWorld ?t1 _ _) =>
      destruct (cycles_quiet rounds (range 1 (rounds + 1))
                  (t1 ++ by_main (speak_body "Hello! I'm ready to play Rock Paper Scissors!"))
                  robot_attrs robot_attrs_ready)
        as (cycles & Hcycles & Hshape)
  end.
  exists cycles. split; [| exact Hshape].
  erewrite try_finally_ok.
  - reflexivity.
  - apply try_except_ok. unfold play_body.
    rewrite (bind_ok _ Hinit).
    run_with speak_idle.
    rewrite (bind_ok _ Hcycles).
    instantiate (1 := mkWorld (by_main opening ++ concat cycles
                               ++ by_main (if (1 <? rounds)%Z
                                           then speak_body "Thanks for playing!"
                                           else [])) [] robot_attrs).
    destruct (1 <? rounds)%Z.
    + rewrite speak_idle by exact HQ. f_equal; f_equal;
        unfold opening, by_main; rewrite !map_app; cbn [map]; flatten_app; reflexivity.
    + unfold ret. f_equal; f_equal;
        unfold opening, by_main; rewrite !map_app; cbn [map]; flatten_app; reflexivity.
  - unfold play_teardown.
    erewrite bind_ok by (apply cleanup_quiet; reflexivity).
    run_with call_idle.
    rewrite call_idle by exact HQ.
    f_equal; f_equal; unfold closing, teardown_calls, by_main;
      rewrite !map_app; cbn [map]; flatten_app; reflexivity.
Qed.

End QuietSession.

(** C6: a session of [N >= 1] rounds in which no call raises and [startup]
    succeeds returns normally, and between its opening and closing calls its
    trace is the concatenation of exactly [N] cycles, numbered 1 to [N]; each
    cycle, the first included, starts by sending the lift to 0.5, flushing,
    waiting, and committing the Reset pose, and only then names the round (when
    [N > 1]) and plays it: draw, announcement, countdown, gesture. *)
Theorem play_runs_every_cycle (N : Z) (E : env) :
  (1 <= N)%Z -> quiet E -> (forall n, startup_ok E n = true) ->
  exists cycles,
    play N E boot
    = (Ok tt,
       mkWorld (by_main opening ++ concat cycles ++ by_main (closing N)) [] robot_attrs) /\
    length cycles = Z.to_nat N /\
    Forall2 (cycle_shape N) (range 1 (N + 1)) cycles.
Proof.
  intros HN HQ Hstart.
  destruct (play_quiet E HQ Hstart N) as (cycles & Hrun & Hshape).
  exists cycles. repeat split; auto.
  rewrite <- (Forall2_length Hshape), range_length. f_equal. lia.
Qed.

Lemma play_runs_every_cycle_witness :
  exists cycles,
    play 2 (calm 1 "rock") boot
    = (Ok tt,
       mkWorld (by_main opening ++ concat cycles ++ by_main (closing 2)) [] robot_attrs) /\
    length cycles = Z.to_nat 2 /\
    Forall2 (cycle_shape 2) (range 1 (2 + 1)) cycles.
Proof.
  apply (play_runs_every_cycle 2 (calm 1 "rock")).
  - lia.
  - apply calm_quiet.
  - intro n. reflexivity.
Defined.

(* ================================================================= *)
(** ** Any environment: what a computation may add to the trace *)

Lemma clean_app (xs ys : list entry) : clean xs -> clean ys -> clean (xs ++ ys).
Proof. unfold clean. intros Hx Hy. now rewrite forallb_app, Hx, Hy. Qed.

Lemma clean_nil : clean [].
Proof. reflexivity. Qed.

Lemma from_speech_clean (seg : list entry) :
  forallb from_speech seg = true -> clean seg.
Proof.
  unfold clean. induction seg as [| x seg IH]; simpl; [reflexivity |].
  rewrite !andb_true_iff. intros [Hx Hs]. split; [| auto].
  destruct x as [[|] ev | [|] ev e]; simpl in *; congruence.
Qed.

Lemma run_thread_speech (k : nat) (E : env) : forall w,
  speechy w ->
  exists seg,
    trace (run_thread k E w) = trace w ++ seg /\
    speechy (run_thread k E w) /\
    attrs (run_thread k E w) = attrs w /\
    forallb from_speech seg = true.
Proof.
  unfold speechy.
  induction k as [| k IH]; intros w Hw; simpl.
  - exists []. now rewrite app_nil_r.
  - destruct (pending w) as [| ev rest] eqn:Hp.
    + exists []. rewrite app_nil_r, Hp. auto.
    + simpl in Hw. apply andb_true_iff in Hw as [Hev Hrest].
      destruct (fault E SpeechThread (clock w) ev) as [e |].
      * exists [Failed SpeechThread ev e]. simpl. rewrite Hev. auto.
      * destruct (IH (mkWorld (trace w ++ [Done SpeechThread ev]) rest (attrs w)) Hrest)
          as (seg & Htr & Hsp & Hat & Hseg).
        exists (Done SpeechThread ev :: seg). simpl in *.
        rewrite Htr, <- app_assoc, Hev. auto.
Qed.

Lemma run_thread_to_end (E : env) : forall k w,
  length (pending w) <= k -> pending (run_thread k E w) = [].
Proof.
  induction k as [| k IH]; intros w Hk; simpl.
  - destruct (pending w); [reflexivity | simpl in Hk; lia].
  - destruct (pending w) as [| ev rest] eqn:Hp; [exact Hp |].
    destruct (fault E SpeechThread (clock w) ev); [reflexivity |].
    apply IH. simpl in *. lia.
Qed.

Section Keeps.
Variable P : event -> bool.
Hypothesis HP : forall ev, speech_call ev = true -> P ev = true.

Lemma from_speech_allowed (seg : list entry) :
  forallb from_speech seg = true -> forallb (fun x => P (event_of x)) seg = true.
Proof.
  induction seg as [| x seg IH]; simpl; [reflexivity |].
  rewrite !andb_true_iff. intros [Hx Hs]. split; [| auto].
  destruct x as [[|] ev | [|] ev e]; simpl in *; try discriminate; auto.
Qed.

Lemma keeps_ret {A : Type} (x : A) : keeps P (ret x).
Proof.
  intros E w Hw. exists []. simpl. rewrite app_nil_r.
  repeat split; auto.
Qed.

Lemma keeps_raise {A : Type} (e : exn) : keeps P (@raise A e).
Proof.
  intros E w Hw. exists []. simpl. rewrite app_nil_r.
  repeat split; auto. left. apply clean_nil.
Qed.

Lemma keeps_need_attr (name : string) : keeps P (need_attr name).
Proof.
  intros E w Hw. exists []. unfold need_attr.
  destruct (existsb (String.eqb name) (attrs w)); simpl; rewrite app_nil_r;
    repeat split; auto. left. apply clean_nil.
Qed.

Lemma keeps_set_attr (name : string) : keeps P (set_attr name).
Proof.
  intros E w Hw. exists []. simpl. rewrite app_nil_r.
  repeat split; auto.
  unfold has_attr. simpl. intros ->. apply orb_true_r.
Qed.

Lemma keeps_of_option {A : Type} (e : exn) (o : option A) : keeps P (of_option e o).
Proof. destruct o; [apply keeps_ret | apply keeps_raise]. Qed.

Lemma keeps_perform {A : Type} (req : env -> nat -> event * A) :
  (forall E n, P (fst (req E n)) = true) -> keeps P (perform req).
Proof.
  intros Hreq E w Hw. unfold perform.
  destruct (run_thread_speech (sched E (clock w)) E w Hw) as (seg & Htr & Hsp & Hat & Hseg).
  set (w1 := run_thread (sched E (clock w)) E w) in *.
  specialize (Hreq E (clock w1)).
  destruct (req E (clock w1)) as [ev x]. simpl in Hreq.
  pose proof (from_speech_allowed seg Hseg) as Hall.
  pose proof (from_speech_clean seg Hseg) as Hcl.
  destruct (fault E MainThread (clock w1) ev) as [e |]; simpl.
  - exists (seg ++ [Failed MainThread ev e]).
    rewrite Htr, <- app_assoc, forallb_app, Hall. simpl. rewrite Hreq.
    repeat split; auto; [congruence |]. right. now exists seg, ev, e.
  - exists (seg ++ [Done MainThread ev]).
    rewrite Htr, <- app_assoc, forallb_app, Hall. simpl. rewrite Hreq.
    repeat split; auto; [congruence |].
    apply clean_app; [exact Hcl | reflexivity].
Qed.

Lemma keeps_call (ev : event) : P ev = true -> keeps P (call ev).
Proof. intro H. apply keeps_perform. intros E n. exact H. Qed.

Lemma keeps_bind {A B : Type} (c : M A) (k : A -> M B) :
  keeps P c -> (forall x, keeps P (k x)) -> keeps P (bind c k).
Proof.
  intros Hc Hk E w Hw. unfold bind.
  destruct (Hc E w Hw) as (seg1 & Htr1 & Hsp1 & Hat1 & Hall1 & Hun1).
  destruct (c E w) as [[x | e] w1]; simpl in *.
  - destruct (Hk x E w1 Hsp1) as (seg2 & Htr2 & Hsp2 & Hat2 & Hall2 & Hun2).
    exists (seg1 ++ seg2).
    rewrite Htr2, Htr1, <- app_assoc, forallb_app, Hall1, Hall2.
    repeat split; auto.
    destruct (fst (k x E w1)); simpl in *.
    + now apply clean_app.
    + destruct Hun2 as [Hcl | (s & ev & e' & -> & Hcl)].
      * left. now apply clean_app.
      * right. exists (seg1 ++ s), ev, e'. rewrite app_assoc.
        split; [reflexivity | now apply clean_app].
  - exists seg1. repeat split; auto.
Qed.

Lemma keeps_for_each {A : Type} (xs : list A) (body : A -> M unit) :
  (forall x, keeps P (body x)) -> keeps P (for_each xs body).
Proof.
  intro Hbody. induction xs as [| x xs IH]; simpl.
  - apply keeps_ret.
  - apply keeps_bind; [apply Hbody | intros _; exact IH].
Qed.

Lemma keeps_speak (text : string) : keeps P (speak text).
Proof.
  unfold speak, speak_body. simpl for_each.
  apply keeps_bind; [apply keeps_call, HP; reflexivity | intros _].
  apply keeps_bind; [apply keeps_call, HP; reflexivity | intros _].
  apply keeps_ret.
Qed.

Lemma keeps_on_attr (name : string) (ev : event) :
  P ev = true -> keeps P (on_attr name ev).
Proof.
  intro H. unfold on_attr.
  apply keeps_bind; [apply keeps_need_attr | intros _; now apply keeps_call].
Qed.

Lemma keeps_thread_start (text : string) :
  P ThreadStart = true -> keeps P (thread_start (speak_body text)).
Proof.
  intro H. unfold thread_start.
  apply keeps_bind; [now apply keeps_call | intros _].
  intros E w Hw. exists []. simpl. rewrite app_nil_r.
  repeat split; auto.
  unfold speechy in *. simpl. rewrite forallb_app, Hw. reflexivity.
Qed.

Lemma keeps_thread_join : P ThreadJoin = true -> keeps P thread_join.
Proof.
  intros H E w Hw. unfold thread_join.
  destruct (run_thread_speech (sched E (clock w)) E w Hw) as (seg & Htr & Hsp & Hat & Hseg).
  set (w1 := run_thread (sched E (clock w)) E w) in *.
  pose proof (from_speech_allowed seg Hseg) as Hall.
  pose proof (from_speech_clean seg Hseg) as Hcl.
  destruct (fault E MainThread (clock w1) ThreadJoin) as [e |]; simpl.
  - exists (seg ++ [Failed MainThread ThreadJoin e]).
    rewrite Htr, <- app_assoc, forallb_app, Hall. simpl. rewrite H.
    repeat split; auto; [congruence |]. right. now exists seg, ThreadJoin, e.
  - destruct (run_thread_speech (length (pending w1)) E w1 Hsp)
      as (seg2 & Htr2 & Hsp2 & Hat2 & Hseg2).
    pose proof (from_speech_allowed seg2 Hseg2) as Hall2.
    pose proof (from_speech_clean seg2 Hseg2) as Hcl2.
    exists (seg ++ seg2 ++ [Done MainThread ThreadJoin]).
    rewrite Htr2, Htr, <- !app_assoc, !forallb_app, Hall, Hall2. simpl. rewrite H.
    repeat split; auto; [congruence |].
    apply clean_app; [exact Hcl |]. apply clean_app; [exact Hcl2 | reflexivity].
Qed.

End Keeps.

(** *** What the [try] suite and the [except] clauses may add *)

Lemma speech_not_teardown (ev : event) : speech_call ev = true -> not_teardown ev = true.
Proof. destruct ev; simpl; intro H; congruence || reflexivity. Qed.

Lemma speech_farewell (ev : event) : speech_call ev = true -> farewell_call ev = true.
Proof. destruct ev; simpl; intro H; congruence || reflexivity. Qed.

Ltac keep_step :=
  first
    [ apply keeps_ret
    | apply keeps_raise
    | apply keeps_of_option
    | apply keeps_need_attr
    | apply keeps_set_attr
    | apply keeps_speak; exact speech_not_teardown
    | apply keeps_thread_join; [exact speech_not_teardown | reflexivity]
    | apply keeps_thread_start; [exact speech_not_teardown | reflexivity]
    | apply keeps_on_attr; [exact speech_not_teardown | reflexivity]
    | apply keeps_call; [exact speech_not_teardown | reflexivity]
    | apply keeps_perform; [exact speech_not_teardown | intros; reflexivity]
    | apply keeps_bind; [| intro] ].

Lemma keeps_make_gesture (g : Guestures) : keeps not_teardown (make_gesture g).
Proof. unfold make_gesture, robot_call. repeat keep_step. Qed.

Lemma keeps_move_arm_animation (word : string) :
  keeps not_teardown (move_arm_animation word).
Proof. unfold move_arm_animation, robot_call. repeat keep_step. Qed.

Lemma keeps_play_round : keeps not_teardown play_round.
Proof.
  unfold play_round, random_choice, valid_moves, echo.
  keep_step; [keep_step |].
  keep_step; [keep_step |].
  keep_step; [keep_step |].
  keep_step; [keep_step |].
  keep_step.
  { unfold countdown. apply keeps_for_each.
    intro word. keep_step; [keep_step | apply keeps_move_arm_animation]. }
  keep_step; [keep_step |].
  keep_step; [keep_step |].
  keep_step; [keep_step |].
  keep_step; [apply keeps_make_gesture |].
  repeat keep_step.
Qed.

Lemma keeps_play_cycle (rounds i : Z) : keeps not_teardown (play_cycle rounds i).
Proof.
  unfold play_cycle, robot_call, click_prompt, echo.
  keep_step; [keep_step |].
  keep_step; [keep_step |].
  keep_step; [keep_step |].
  keep_step; [apply keeps_make_gesture |].
  keep_step; [destruct (1 <? rounds)%Z; repeat keep_step |].
  keep_step; [apply keeps_play_round |].
  repeat keep_step.
Qed.

Lemma keeps_after_robot_create :
  keeps not_teardown
    (need_attr "robot" ;;
     started <- perform (fun E n => (RobotStartup (startup_ok E n), startup_ok E n)) ;;
     if negb started then
       raise (ClickException "Failed to initialize the robot")
     else
       robot_call (GetJoint "wrist_yaw") ;;
       set_attr "wrist_yaw" ;;
       robot_call (GetJoint "wrist_roll") ;;
       set_attr "wrist_roll").
Proof.
  unfold robot_call.
  keep_step; [keep_step |].
  apply keeps_bind; [keep_step | intro started].
  destruct (negb started); repeat keep_step.
Qed.

Lemma keeps_init_robot : keeps not_teardown init_robot.
Proof.
  unfold init_robot.
  keep_step; [keep_step |].
  keep_step; [keep_step |].
  apply keeps_after_robot_create.
Qed.

Lemma keeps_session (rounds : Z) :
  keeps not_teardown
    (speak "Hello! I'm ready to play Rock Paper Scissors!" ;;
     for_each (range 1 (rounds + 1)) (play_cycle rounds) ;;
     (if (1 <? rounds)%Z then speak "Thanks for playing!" else ret tt)).
Proof.
  keep_step; [keep_step |].
  keep_step.
  - apply keeps_for_each. intro i. apply keeps_play_cycle.
  - destruct (1 <? rounds)%Z; keep_step.
Qed.

Lemma keeps_play_body (rounds : Z) : keeps not_teardown (play_body rounds).
Proof.
  unfold play_body.
  apply keeps_bind; [apply keeps_init_robot | intros _].
  apply keeps_session.
Qed.

Lemma keeps_play_handler (e : exn) (h : M unit) :
  play_handler e = Some h -> keeps farewell_call h.
Proof.
  destruct e; simpl; intro H; try discriminate; injection H as <-; unfold echo.
  - apply keeps_call; [exact speech_farewell | reflexivity].
  - apply keeps_bind; [| intros _].
    + apply keeps_call; [exact speech_farewell | reflexivity].
    + apply keeps_speak. exact speech_farewell.
Qed.

(** *** Calls that do not raise, and the teardown *)

Lemma bind_bind {A B C : Type} (c : M A) (f : A -> M B) (g : B -> M C) E w :
  bind (bind c f) g E w = bind c (fun x => bind (f x) g) E w.
Proof. unfold bind. destruct (c E w) as [[x | e] w1]; reflexivity. Qed.

Lemma call_idle_spared (ev : event) E tr a :
  fault E MainThread (length tr) ev = None ->
  call ev E (mkWorld tr [] a) = (Ok tt, mkWorld (tr ++ [Done MainThread ev]) [] a).
Proof.
  intro H. unfold call, perform.
  assert (Hrt : run_thread (sched E (clock (mkWorld tr [] a))) E (mkWorld tr [] a)
                = mkWorld tr [] a) by (destruct (sched E _); reflexivity).
  rewrite Hrt. unfold clock. simpl. now rewrite H.
Qed.

Lemma call_spared (ev : event) E w :
  (forall n, fault E MainThread n ev = None) -> speechy w ->
  exists seg w',
    call ev E w = (Ok tt, w') /\
    trace w' = trace w ++ seg ++ [Done MainThread ev] /\
    forallb from_speech seg = true /\
    speechy w' /\
    attrs w' = attrs w.
Proof.
  intros H Hw. unfold call, perform.
  destruct (run_thread_speech (sched E (clock w)) E w Hw) as (seg & Htr & Hsp & Hat & Hseg).
  set (w1 := run_thread (sched E (clock w)) E w) in *.
  rewrite H. exists seg, (log (Done MainThread ev) w1).
  simpl. rewrite Htr, <- app_assoc. repeat split; auto.
Qed.

Lemma speech_no_teardown (seg : list entry) :
  forallb from_speech seg = true ->
  filter teardown_entry seg = [] /\ forallb after_failure seg = true.
Proof.
  induction seg as [| x seg IH]; simpl; [auto |].
  rewrite andb_true_iff. intros [Hx Hs]. destruct (IH Hs) as [IH1 IH2].
  rewrite IH2. unfold teardown_entry, after_failure.
  destruct x as [[|] ev | [|] ev e]; simpl in *; try discriminate;
    destruct ev; simpl in *; try discriminate; auto.
Qed.

Lemma play_teardown_spared E w :
  (forall n ev, is_teardown ev = true -> fault E MainThread n ev = None) ->
  speechy w -> has_attr "robot" (attrs w) = true ->
  exists seg w',
    play_teardown E w = (Ok tt, w') /\
    trace w' = trace w ++ seg /\
    filter teardown_entry seg = by_main teardown_calls /\
    forallb after_failure seg = true.
Proof.
  intros H Hw Ha.
  destruct (call_spared RobotStop E w (fun n => H n RobotStop eq_refl) Hw)
    as (s1 & w1 & Hc1 & Ht1 & Hs1 & Hw1 & Ha1).
  destruct (call_spared RclpyShutdown E w1 (fun n => H n RclpyShutdown eq_refl) Hw1)
    as (s2 & w2 & Hc2 & Ht2 & Hs2 & Hw2 & Ha2).
  destruct (call_spared Getpgid E w2 (fun n => H n Getpgid eq_refl) Hw2)
    as (s3 & w3 & Hc3 & Ht3 & Hs3 & Hw3 & Ha3).
  destruct (call_spared Killpg E w3 (fun n => H n Killpg eq_refl) Hw3)
    as (s4 & w4 & Hc4 & Ht4 & Hs4 & Hw4 & Ha4).
  exists ((s1 ++ [Done MainThread RobotStop]) ++ (s2 ++ [Done MainThread RclpyShutdown])
          ++ (s3 ++ [Done MainThread Getpgid]) ++ (s4 ++ [Done MainThread Killpg])), w4.
  destruct (speech_no_teardown s1 Hs1) as [F1 Q1].
  destruct (speech_no_teardown s2 Hs2) as [F2 Q2].
  destruct (speech_no_teardown s3 Hs3) as [F3 Q3].
  destruct (speech_no_teardown s4 Hs4) as [F4 Q4].
  split; [| split; [| split]].
  - unfold play_teardown, cleanup, robot_call.
    unfold on_attr. rewrite bind_bind. cbv beta.
    rewrite (bind_ok _ (need_attr_ok "robot" E w Ha)).
    rewrite !bind_bind. cbv beta.
    rewrite (bind_ok _ (need_attr_ok "robot" E w Ha)).
    rewrite (bind_ok _ Hc1), (bind_ok _ Hc2), (bind_ok _ Hc3). exact Hc4.
  - rewrite Ht4, Ht3, Ht2, Ht1. now rewrite <- !app_assoc.
  - rewrite !filter_app, F1, F2, F3, F4. reflexivity.
  - rewrite !forallb_app, Q1, Q2, Q3, Q4. reflexivity.
Qed.

Lemma setup_spared (E : env) {A : Type} (K : M A) :
  (forall n ev, n < 6 -> fault E MainThread n ev = None) ->
  (call (Popen ["ros2"; "run"; "sound_play"; "soundplay_node.py"]) ;;
   call (Sleep 2) ;;
   RockPaperScissors_init ;;
   K) E boot
  = K E (mkWorld (by_main setup_calls) [] []).
Proof.
  intro H. unfold boot, RockPaperScissors_init.
  do 6 (repeat (rewrite bind_bind; cbv beta);
        erewrite bind_ok by (apply call_idle_spared; apply H; simpl; lia)).
  reflexivity.
Qed.

Lemma body_has_robot (rounds : Z) E w :
  (forall n, fault E MainThread n RobotCreate = None) -> speechy w ->
  has_attr "robot" (attrs (snd (play_body rounds E w))) = true.
Proof.
  intros H Hw.
  destruct (call_spared RobotCreate E w H Hw) as (s1 & w1 & Hc1 & Ht1 & Hs1 & Hw1 & Ha1).
  unfold play_body, init_robot.
  repeat (rewrite bind_bind; cbv beta). rewrite (bind_ok _ Hc1).
  destruct w1 as [tr1 p1 a1].
  repeat (rewrite bind_bind; cbv beta).
  rewrite (bind_ok _ (set_attr_eq "robot" E tr1 p1 a1)).
  match goal with
  | |- has_attr _ (attrs (snd (?c E ?w0))) = true =>
      assert (Hk : keeps not_teardown c)
  end.
  { repeat first
      [ apply keeps_session
      | match goal with
        | |- keeps _ (if negb ?b then _ else _) => destruct b; simpl negb; cbv iota
        end
      | keep_step ]. }
  match goal with
  | |- has_attr _ (attrs (snd (?c E ?w0))) = true =>
      destruct (Hk E w0 Hw1) as (seg & _ & _ & Hrobot & _)
  end.
  apply Hrobot. reflexivity.
Qed.

(** *** After a call of the main thread has raised *)

Lemma first_failure_split (X R pre post : list entry) (F : entry) :
  clean X -> main_failed F = true -> X ++ R = pre ++ F :: post ->
  exists mid, R = mid ++ F :: post.
Proof.
  unfold clean. revert pre.
  induction X as [| x X IH]; intros pre HX HF Heq; simpl in *.
  - now exists pre.
  - apply andb_true_iff in HX as [Hx HX].
    destruct pre as [| p pre]; simpl in Heq; injection Heq as -> Heq.
    + rewrite HF in Hx. discriminate.
    + eapply IH; eauto.
Qed.



Lemma farewell_filter (seg : list entry) :
  forallb (fun x => farewell_call (event_of x)) seg = true ->
  filter teardown_entry seg = [] /\ forallb after_failure seg = true.
Proof.
  unfold teardown_entry, after_failure.
  induction seg as [| x seg IH]; simpl; [auto |].
  rewrite andb_true_iff. intros [Hx Hs]. destruct (IH Hs) as [IH1 IH2].
  rewrite Hx, IH2. simpl.
  destruct (event_of x); simpl in *; try discriminate; auto.
Qed.


(* ================================================================= *)
(** ** Teardown *)


Lemma gripper_fault_spares :
  (forall n ev, n < 6 -> fault gripper_fault MainThread n ev = None) /\
  (forall n, fault gripper_fault MainThread n RobotCreate = None) /\
  (forall n ev, is_teardown ev = true -> fault gripper_fault MainThread n ev = None).
Proof.
  split; [| split].
  - intros n ev Hn. destruct ev; try reflexivity.
    cbv [gripper_fault fault]. destruct (Nat.leb_spec 100 n); [lia | reflexivity].
  - intros n. reflexivity.
  - intros n ev Hev. destruct ev; try reflexivity. discriminate Hev.
Qed.



Example gripper_fault_run :
  fst (play 3 gripper_fault boot) = Raise ActuatorFault /\
  count_choices (trace (snd (play 3 gripper_fault boot))) = 2.
Proof. vm_compute. split; reflexivity. Qed.

Example interrupted_run :
  fst (play 3 interrupted boot) = Ok tt /\
  count_choices (trace (snd (play 3 interrupted boot))) = 2 /\
  filter teardown_entry (trace (snd (play 3 interrupted boot))) = by_main teardown_calls.
Proof. vm_compute. repeat split; reflexivity. Qed.

(* ================================================================= *)
(** ** Speech failures *)

Lemma perform_idle_spared {A : Type} (req : env -> nat -> event * A) E tr a :
  fault E MainThread (length tr) (fst (req E (length tr))) = None ->
  perform req E (mkWorld tr [] a)
  = (Ok (snd (req E (length tr))),
     mkWorld (tr ++ [Done MainThread (fst (req E (length tr)))]) [] a).
Proof.
  intro H. unfold perform.
  assert (Hrt : run_thread (sched E (clock (mkWorld tr [] a))) E (mkWorld tr [] a)
                = mkWorld tr [] a) by (destruct (sched E _); reflexivity).
  rewrite Hrt. unfold clock. simpl trace.
  destruct (req E (length tr)) as [ev x]. simpl in *. now rewrite H.
Qed.

Lemma speak_raises (text : string) E tr a e :
  fault E MainThread (length tr) (Say text) = Some e ->
  speak text E (mkWorld tr [] a)
  = (Raise e, mkWorld (tr ++ [Failed MainThread (Say text) e]) [] a).
Proof.
  intro H. unfold speak, speak_body. simpl for_each.
  apply bind_raise. unfold call, perform.
  assert (Hrt : run_thread (sched E (clock (mkWorld tr [] a))) E (mkWorld tr [] a)
                = mkWorld tr [] a) by (destruct (sched E _); reflexivity).
  rewrite Hrt. unfold clock. simpl trace. now rewrite H.
Qed.

(** Calls of the main thread when only the speech thread may raise. *)
Section MainQuiet.
Variable E : env.
Hypothesis HM : main_quiet E.

Lemma perform_main_quiet {A : Type} (req : env -> nat -> event * A) w :
  exists n w',
    perform req E w = (Ok (snd (req E n)), w') /\
    done_main (trace w') = done_main (trace w) ++ [fst (req E n)] /\
    attrs w' = attrs w.
Proof.
  unfold perform.
  set (w1 := run_thread (sched E (clock w)) E w).
  exists (clock w1). destruct (req E (clock w1)) as [ev x]. rewrite HM.
  eexists. split; [reflexivity |]. simpl.
  rewrite done_main_app. unfold w1.
  now rewrite run_thread_done_main, run_thread_attrs.
Qed.

Lemma call_main_quiet (ev : event) w :
  exists w',
    call ev E w = (Ok tt, w') /\
    done_main (trace w') = done_main (trace w) ++ [ev] /\
    attrs w' = attrs w.
Proof.
  destruct (perform_main_quiet (fun _ _ => (ev, tt)) w) as (n & w' & H).
  now exists w'.
Qed.

Lemma on_attr_main_quiet (name : string) (ev : event) w :
  has_attr name (attrs w) = true ->
  exists w',
    on_attr name ev E w = (Ok tt, w') /\
    done_main (trace w') = done_main (trace w) ++ [ev] /\
    attrs w' = attrs w.
Proof. intro H. rewrite on_attr_ok by exact H. apply call_main_quiet. Qed.

Lemma thread_start_main_quiet (body : list event) w :
  exists w',
    thread_start body E w = (Ok tt, w') /\
    done_main (trace w') = done_main (trace w) ++ [ThreadStart] /\
    attrs w' = attrs w.
Proof.
  destruct (call_main_quiet ThreadStart w) as (w1 & Hc & Hd & Ha).
  unfold thread_start. rewrite (bind_ok _ Hc).
  eexists. split; [reflexivity |]. simpl. auto.
Qed.

Lemma thread_join_main_quiet w :
  exists w',
    thread_join E w = (Ok tt, w') /\
    done_main (trace w') = done_main (trace w) ++ [ThreadJoin] /\
    attrs w' = attrs w /\
    pending w' = [].
Proof.
  unfold thread_join.
  set (w1 := run_thread (sched E (clock w)) E w).
  rewrite HM. eexists. split; [reflexivity |]. simpl.
  rewrite done_main_app, !run_thread_done_main, !run_thread_attrs.
  unfold w1. rewrite run_thread_done_main, run_thread_attrs.
  split; [reflexivity |]. split; [reflexivity |].
  now apply run_thread_to_end.
Qed.

Lemma move_arm_animation_main_quiet (word : string) w :
  has_attr "robot" (attrs w) = true ->
  exists h w',
    move_arm_animation word E w = (Ok tt, w') /\
    done_main (trace w') = done_main (trace w) ++ bob_calls h /\
    attrs w' = attrs w /\
    pending w' = [].
Proof.
  intro Ha. unfold move_arm_animation, robot_call.
  rewrite (bind_ok _ (need_attr_ok "robot" E w Ha)).
  destruct (perform_main_quiet
              (fun E n => (LiftStatusPos (lift_pos E n), lift_pos E n)) w)
    as (n & w1 & H1 & D1 & A1).
  rewrite (bind_ok _ H1). cbv beta iota zeta delta [fst snd] in *.
  assert (Ha1 : has_attr "robot" (attrs w1) = true) by congruence.
  destruct (on_attr_main_quiet "robot" (LiftMoveBy 0.1) w1 Ha1) as (w2 & H2 & D2 & A2).
  rewrite (bind_ok _ H2).
  assert (Ha2 : has_attr "robot" (attrs w2) = true) by congruence.
  destruct (on_attr_main_quiet "robot" PushCommand w2 Ha2) as (w3 & H3 & D3 & A3).
  rewrite (bind_ok _ H3).
  destruct (thread_start_main_quiet (speak_body word) w3) as (w4 & H4 & D4 & A4).
  rewrite (bind_ok _ H4).
  destruct (call_main_quiet (Sleep 0.5) w4) as (w5 & H5 & D5 & A5).
  rewrite (bind_ok _ H5).
  assert (Ha5 : has_attr "robot" (attrs w5) = true) by congruence.
  destruct (on_attr_main_quiet "robot" (LiftMoveTo (lift_pos E n)) w5 Ha5)
    as (w6 & H6 & D6 & A6).
  rewrite (bind_ok _ H6).
  assert (Ha6 : has_attr "robot" (attrs w6) = true) by congruence.
  destruct (on_attr_main_quiet "robot" PushCommand w6 Ha6) as (w7 & H7 & D7 & A7).
  rewrite (bind_ok _ H7).
  destruct (call_main_quiet (Sleep 0.5) w7) as (w8 & H8 & D8 & A8).
  rewrite (bind_ok _ H8).
  destruct (thread_join_main_quiet w8) as (w9 & H9 & D9 & A9 & P9).
  exists (lift_pos E n), w9. split; [exact H9 |]. split; [| split; [congruence | exact P9]].
  rewrite D9, D8, D7, D6, D5, D4, D3, D2, D1.
  unfold bob_calls, bob_head, bob_tail. now rewrite <- !app_assoc.
Qed.

End MainQuiet.

Lemma play_round_first_phrase_raises E tr a e :
  fault E MainThread (length tr) (RandomChoice (picked (draw E (length tr)))) = None ->
  fault E MainThread (S (length tr)) (Say "Let's play!") = Some e ->
  play_round E (mkWorld tr [] a)
  = (Raise e,
     mkWorld (tr ++ [ Done MainThread (RandomChoice (picked (draw E (length tr))));
                      Failed MainThread (Say "Let's play!") e ]) [] a).
Proof.
  intros Hdraw Hsay. unfold play_round, random_choice, valid_moves.
  erewrite bind_ok by (apply perform_idle_spared; exact Hdraw).
  cbv beta iota zeta delta [fst snd].
  erewrite bind_raise
    by (apply speak_raises; rewrite length_app, Nat.add_1_r; exact Hsay).
  rewrite <- app_assoc. reflexivity.
Qed.

(** *** Exceptions of the main thread are never absorbed *)

Lemma run_thread_clean (k : nat) (E : env) : forall w,
  exists seg, trace (run_thread k E w) = trace w ++ seg /\ clean seg.
Proof.
  induction k as [| k IH]; intro w; simpl.
  - exists []. now rewrite app_nil_r.
  - destruct (pending w) as [| ev rest].
    + exists []. now rewrite app_nil_r.
    + destruct (fault E SpeechThread (clock w) ev) as [e |].
      * now exists [Failed SpeechThread ev e].
      * destruct (IH (mkWorld (trace w ++ [Done SpeechThread ev]) rest (attrs w)))
          as (seg & Htr & Hcl).
        exists (Done SpeechThread ev :: seg). simpl in *.
        now rewrite Htr, <- app_assoc.
Qed.

Lemma blames_failed {A : Type} (r : result A) (pre post : list entry) ev e :
  blames r (pre ++ Failed MainThread ev e :: post) -> r = Raise e /\ post = [].
Proof.
  assert (Hdirty : ~ clean (pre ++ Failed MainThread ev e :: post)).
  { unfold clean. rewrite forallb_app. simpl. rewrite andb_false_r. discriminate. }
  destruct r as [x | e0]; simpl.
  - intro H. now destruct Hdirty.
  - intros [H | (s & ev' & Heq & Hs)]; [now destruct Hdirty |].
    destruct (first_failure_split s [Failed MainThread ev' e0] pre post
                (Failed MainThread ev e) Hs eq_refl (eq_sym Heq)) as [mid Hmid].
    destruct mid as [| m mid]; simpl in Hmid.
    + injection Hmid as _ -> ->. now split.
    + injection Hmid as _ Hmid. now destruct mid.
Qed.

Lemma accountable_stops {A : Type} (c : M A) : accountable c -> stops_at_failure c.
Proof.
  intros Hc E w pre ev e post Heq.
  destruct (Hc E w) as (seg & Htr & Hb).
  rewrite Htr in Heq. apply app_inv_head in Heq. subst seg.
  exact (blames_failed _ _ _ _ _ Hb).
Qed.

Lemma accountable_ret {A : Type} (x : A) : accountable (ret x).
Proof. intros E w. exists []. simpl. rewrite app_nil_r. split; [reflexivity | apply clean_nil]. Qed.

Lemma accountable_raise {A : Type} (e : exn) : accountable (@raise A e).
Proof.
  intros E w. exists []. simpl. rewrite app_nil_r.
  split; [reflexivity | left; apply clean_nil].
Qed.

Lemma accountable_need_attr (name : string) : accountable (need_attr name).
Proof.
  intros E w. exists []. unfold need_attr.
  destruct (existsb (String.eqb name) (attrs w)); simpl; rewrite app_nil_r;
    (split; [reflexivity |]); [apply clean_nil | left; apply clean_nil].
Qed.

Lemma accountable_set_attr (name : string) : accountable (set_attr name).
Proof. intros E w. exists []. simpl. rewrite app_nil_r. split; [reflexivity | apply clean_nil]. Qed.

Lemma accountable_of_option {A : Type} (e : exn) (o : option A) :
  accountable (of_option e o).
Proof. destruct o; [apply accountable_ret | apply accountable_raise]. Qed.

Lemma accountable_perform {A : Type} (req : env -> nat -> event * A) :
  accountable (perform req).
Proof.
  intros E w. unfold perform.
  destruct (run_thread_clean (sched E (clock w)) E w) as (seg & Htr & Hcl).
  set (w1 := run_thread (sched E (clock w)) E w) in *.
  destruct (req E (clock w1)) as [ev x].
  destruct (fault E MainThread (clock w1) ev) as [e |]; simpl.
  - exists (seg ++ [Failed MainThread ev e]). rewrite Htr, <- app_assoc.
    split; [reflexivity |]. right. now exists seg, ev.
  - exists (seg ++ [Done MainThread ev]). rewrite Htr, <- app_assoc.
    split; [reflexivity |]. apply clean_app; [exact Hcl | reflexivity].
Qed.

Lemma accountable_call (ev : event) : accountable (call ev).
Proof. apply accountable_perform. Qed.

Lemma accountable_bind {A B : Type} (c : M A) (k : A -> M B) :
  accountable c -> (forall x, accountable (k x)) -> accountable (bind c k).
Proof.
  intros Hc Hk E w. unfold bind.
  destruct (Hc E w) as (seg1 & Htr1 & Hb1).
  destruct (c E w) as [[x | e] w1]; simpl in *.
  - destruct (Hk x E w1) as (seg2 & Htr2 & Hb2).
    exists (seg1 ++ seg2). rewrite Htr2, Htr1, <- app_assoc.
    split; [reflexivity |].
    destruct (fst (k x E w1)) as [y | e]; simpl in *.
    + now apply clean_app.
    + destruct Hb2 as [Hcl | (s & ev & -> & Hcl)].
      * left. now apply clean_app.
      * right. exists (seg1 ++ s), ev. rewrite app_assoc.
        split; [reflexivity | now apply clean_app].
  - now exists seg1.
Qed.

Lemma accountable_for_each {A : Type} (xs : list A) (body : A -> M unit) :
  (forall x, accountable (body x)) -> accountable (for_each xs body).
Proof.
  intro Hbody. induction xs as [| x xs IH]; simpl.
  - apply accountable_ret.
  - apply accountable_bind; [apply Hbody | intros _; exact IH].
Qed.

Lemma accountable_on_attr (name : string) (ev : event) : accountable (on_attr name ev).
Proof.
  apply accountable_bind; [apply accountable_need_attr | intros _; apply accountable_call].
Qed.

Lemma accountable_thread_start (body : list event) : accountable (thread_start body).
Proof.
  apply accountable_bind; [apply accountable_call | intros _].
  intros E w. exists []. simpl. rewrite app_nil_r. split; [reflexivity | apply clean_nil].
Qed.

Lemma accountable_thread_join : accountable thread_join.
Proof.
  intros E w. unfold thread_join.
  destruct (run_thread_clean (sched E (clock w)) E w) as (seg & Htr & Hcl).
  set (w1 := run_thread (sched E (clock w)) E w) in *.
  destruct (fault E MainThread (clock w1) ThreadJoin) as [e |]; simpl.
  - exists (seg ++ [Failed MainThread ThreadJoin e]). rewrite Htr, <- app_assoc.
    split; [reflexivity |]. right. now exists seg, ThreadJoin.
  - destruct (run_thread_clean (length (pending w1)) E w1) as (seg2 & Htr2 & Hcl2).
    exists (seg ++ seg2 ++ [Done MainThread ThreadJoin]).
    rewrite Htr2, Htr, <- !app_assoc. split; [reflexivity |].
    apply clean_app; [exact Hcl |]. apply clean_app; [exact Hcl2 | reflexivity].
Qed.

Lemma accountable_speak (text : string) : accountable (speak text).
Proof. apply accountable_for_each. intro ev. apply accountable_call. Qed.

Ltac account_step :=
  first
    [ apply accountable_ret
    | apply accountable_raise
    | apply accountable_need_attr
    | apply accountable_set_attr
    | apply accountable_of_option
    | apply accountable_speak
    | apply accountable_call
    | apply accountable_on_attr
    | apply accountable_thread_start
    | apply accountable_thread_join
    | apply accountable_perform
    | apply accountable_bind; [| intro]
    | match goal with
      | |- accountable (if ?b then _ else _) => destruct b
      end ].

Lemma accountable_make_gesture (g : Guestures) : accountable (make_gesture g).
Proof. unfold make_gesture, robot_call. repeat account_step. Qed.

Lemma accountable_move_arm_animation (word : string) :
  accountable (move_arm_animation word).
Proof. unfold move_arm_animation, robot_call. repeat account_step. Qed.

Lemma accountable_countdown (words : list string) : accountable (countdown words).
Proof.
  apply accountable_for_each. intro word.
  apply accountable_bind; [apply accountable_call | intros _].
  apply accountable_move_arm_animation.
Qed.

Lemma accountable_play_round : accountable play_round.
Proof.
  unfold play_round, random_choice, valid_moves, echo.
  apply accountable_bind; [apply accountable_perform | intro m].
  apply accountable_bind; [apply accountable_speak | intros _].
  apply accountable_bind; [apply accountable_call | intros _].
  apply accountable_bind; [apply accountable_call | intros _].
  apply accountable_bind; [apply accountable_countdown | intros _].
  apply accountable_bind; [apply accountable_speak | intros _].
  apply accountable_bind; [apply accountable_call | intros _].
  apply accountable_bind; [apply accountable_of_option | intro g].
  apply accountable_bind; [apply accountable_make_gesture | intros _].
  apply accountable_bind; [apply accountable_call | intros _].
  apply accountable_bind; [apply accountable_speak | intros _].
  apply accountable_ret.
Qed.

Lemma accountable_play_cycle (rounds i : Z) : accountable (play_cycle rounds i).
Proof.
  unfold play_cycle, robot_call, click_prompt, echo.
  apply accountable_bind; [apply accountable_on_attr | intros _].
  apply accountable_bind; [apply accountable_on_attr | intros _].
  apply accountable_bind; [apply accountable_on_attr | intros _].
  apply accountable_bind; [apply accountable_make_gesture | intros _].
  apply accountable_bind.
  { destruct (1 <? rounds)%Z; [| apply accountable_ret].
    apply accountable_bind; [apply accountable_call | intros _].
    apply accountable_speak. }
  intros _.
  apply accountable_bind; [apply accountable_play_round | intro m].
  apply accountable_bind; [apply accountable_perform | intro reply].
  apply accountable_bind; [apply accountable_call | intros _].
  apply accountable_speak.
Qed.

(** C8, as the code has it: neither [speak] nor any of its callers below
    [play] has a handler.  When the sound client raises in a [speak] called
    on the main thread, [speak] raises the same exception with the failed
    call as the last thing done.  More generally, in every environment and
    from every state, as soon as any call of the main thread raises inside
    [speak], inside [play_round] or inside one cycle of the session loop
    (banner, round, prompt, result), that computation raises the very same
    exception and makes no further call: no failure is absorbed and no
    remaining step of the round runs.  Only in the countdown, where [speak]
    runs in its own thread, is the failure confined: whatever raises in the
    speech thread, [move_arm_animation] makes all of its own calls, the
    thread is over when [join] returns, and the call returns normally. *)
Theorem speak_failure_propagates :
  (forall text E tr a e,
     fault E MainThread (length tr) (Say text) = Some e ->
     speak text E (mkWorld tr [] a)
     = (Raise e, mkWorld (tr ++ [Failed MainThread (Say text) e]) [] a)) /\
  (forall text, stops_at_failure (speak text)) /\
  stops_at_failure play_round /\
  (forall rounds i, stops_at_failure (play_cycle rounds i)) /\
  (forall word E w,
     main_quiet E -> has_attr "robot" (attrs w) = true ->
     exists h w',
       move_arm_animation word E w = (Ok tt, w') /\
       done_main (trace w') = done_main (trace w) ++ bob_calls h /\
       pending w' = []).
Proof.
  split; [| split; [| split; [| split]]].
  - intros text E tr a e H. exact (speak_raises text E tr a e H).
  - intro text. apply accountable_stops, accountable_speak.
  - apply accountable_stops, accountable_play_round.
  - intros rounds i. apply accountable_stops, accountable_play_cycle.
  - intros word E w HM Ha.
    destruct (move_arm_animation_main_quiet E HM word w Ha)
      as (h & w' & Hrun & Hd & _ & Hp).
    now exists h, w'.
Qed.

Lemma hoarse_main_quiet : main_quiet hoarse.
Proof. intros n ev. reflexivity. Qed.

Lemma speak_failure_propagates_witness :
  speak "Let's play!" mute (mkWorld [] [] robot_attrs)
  = (Raise SpeechFailure,
     mkWorld ([] ++ [Failed MainThread (Say "Let's play!") SpeechFailure]) [] robot_attrs) /\
  (fst (play_round (fails_on "Shoot!") (mkWorld [] [] robot_attrs)) = Raise SpeechFailure /\
   @nil entry = []) /\
  (fst (play_round (fails_on "I choose rock") (mkWorld [] [] robot_attrs))
   = Raise SpeechFailure /\ @nil entry = []) /\
  (fst (play_cycle 3 2 (fails_on "Round 2") (mkWorld [] [] robot_attrs))
   = Raise SpeechFailure /\ @nil entry = []) /\
  (fst (play_cycle 1 1 (fails_on "You win!") (mkWorld [] [] robot_attrs))
   = Raise SpeechFailure /\ @nil entry = []) /\
  (exists h w',
     move_arm_animation "Rock" hoarse (mkWorld [] [] robot_attrs) = (Ok tt, w') /\
     done_main (trace w') = done_main (trace (mkWorld [] [] robot_attrs)) ++ bob_calls h /\
     pending w' = []).
Proof.
  destruct speak_failure_propagates as (Hspeak & _ & Hround & Hcycle & Hthread).
  split; [| split; [| split; [| split; [| split]]]].
  - apply Hspeak. reflexivity.
  - apply (Hround (fails_on "Shoot!") (mkWorld [] [] robot_attrs)
             (removelast (trace (snd (play_round (fails_on "Shoot!")
                                        (mkWorld [] [] robot_attrs)))))
             (Say "Shoot!") SpeechFailure []).
    vm_compute. reflexivity.
  - apply (Hround (fails_on "I choose rock") (mkWorld [] [] robot_attrs)
             (removelast (trace (snd (play_round (fails_on "I choose rock")
                                        (mkWorld [] [] robot_attrs)))))
             (Say "I choose rock") SpeechFailure []).
    vm_compute. reflexivity.
  - apply (Hcycle 3%Z 2%Z (fails_on "Round 2") (mkWorld [] [] robot_attrs)
             (removelast (trace (snd (play_cycle 3 2 (fails_on "Round 2")
                                        (mkWorld [] [] robot_attrs)))))
             (Say "Round 2") SpeechFailure []).
    vm_compute. reflexivity.
  - apply (Hcycle 1%Z 1%Z (fails_on "You win!") (mkWorld [] [] robot_attrs)
             (removelast (trace (snd (play_cycle 1 1 (fails_on "You win!")
                                        (mkWorld [] [] robot_attrs)))))
             (Say "You win!") SpeechFailure []).
    vm_compute. reflexivity.
  - apply Hthread; [exact hoarse_main_quiet | reflexivity].
Defined.

(** C8 as stated fails: the sound client raises on "Let's play!", and the
    round ends there, before the countdown, the gesture and the announcement;
    the session ends with it. *)
Lemma speak_failure_aborts_round :
  play_round mute (mkWorld [] [] robot_attrs)
  = (Raise SpeechFailure,
     mkWorld [ Done MainThread (RandomChoice "rock");
               Failed MainThread (Say "Let's play!") SpeechFailure ]
             [] robot_attrs) /\
  fst (play 1 mute boot) = Raise SpeechFailure /\
  done_main (trace (snd (play 1 mute boot)))
  = opening ++ reset_calls ++ [RandomChoice "rock"] ++ teardown_calls.
Proof. vm_compute. repeat split; reflexivity. Qed.

Example hoarse_round :
  fst (play_round hoarse (mkWorld [] [] robot_attrs)) = Ok "rock" /\
  said (trace (snd (play_round hoarse (mkWorld [] [] robot_attrs)))) = [] /\
  filter (fun x => match x with Failed SpeechThread _ _ => true | _ => false end)
    (trace (snd (play_round hoarse (mkWorld [] [] robot_attrs))))
  = [ Failed SpeechThread (Say "Rock") SpeechFailure;
      Failed SpeechThread (Say "Paper") SpeechFailure;
      Failed SpeechThread (Say "Scissors") SpeechFailure ].
Proof. vm_compute. repeat split; reflexivity. Qed.

(* ================================================================= *)
(** ** Sample sessions *)

(** One round, the robot draws paper and the player reports rock. *)
Example session_paper_beats_rock :
  fst (play 1 (calm 1 "rock") boot) = Ok tt /\
  existsb (says "Stretch wins!") (done_main (trace (snd (play 1 (calm 1 "rock") boot))))
  = true.
Proof. vm_compute. split; reflexivity. Qed.

(** One round, both play scissors. *)
Example session_scissors_tie :
  fst (play 1 (calm 2 "scissors") boot) = Ok tt /\
  existsb (says "It's a tie!") (done_main (trace (snd (play 1 (calm 2 "scissors") boot))))
  = true.
Proof. vm_compute. split; reflexivity. Qed.

(** Outside the hypotheses of the teardown theorem: when the robot's
    constructor raises, [self.robot] was never assigned, [cleanup] raises
    [AttributeError] at [if self.robot:], and neither [rclpy.shutdown] nor
    [os.killpg] is reached. *)
Example session_without_robot :
  play 1 no_robot boot
  = (Raise (AttributeError "robot"),
     mkWorld (by_main setup_calls ++ [Failed MainThread RobotCreate ActuatorFault]) [] []).
Proof. vm_compute. reflexivity. Qed.

(* ================================================================= *)
(** ** Further properties of the pure code *)

Lemma valid_moves_cases (P : string -> Prop) :
  P "rock" -> P "paper" -> P "scissors" -> forall m, In m valid_moves -> P m.
Proof. intros Hr Hp Hs m [<- | [<- | [<- | []]]]; assumption. Qed.

(** X1: on valid moves the game is antisymmetric: the robot wins a pair
    exactly when the player wins the swapped pair, ties are symmetric, and
    every move wins against exactly one move, loses against exactly one and
    ties with exactly one. *)
Theorem determine_winner_swap (r p : string) :
  In r valid_moves -> In p valid_moves ->
  (determine_winner r p = "Stretch wins!" <-> determine_winner p r = "You win!") /\
  (determine_winner r p = "It's a tie!" <-> determine_winner p r = "It's a tie!") /\
  count_against "Stretch wins!" r = 1 /\
  count_against "You win!" r = 1 /\
  count_against "It's a tie!" r = 1.
Proof.
  intros Hr Hp. revert p Hp. revert r Hr.
  apply (valid_moves_cases
           (fun r => forall p, In p valid_moves -> _ /\ _ /\ _ /\ _ /\ _));
    apply valid_moves_cases;
    (split; [| split; [| repeat split]]);
    try reflexivity;
    vm_compute; split; intro H; try reflexivity; discriminate H.
Qed.

Lemma determine_winner_swap_witness :
  determine_winner "rock" "scissors" = "Stretch wins!" /\
  determine_winner "scissors" "rock" = "You win!".
Proof.
  assert (Hr : In "rock" valid_moves) by (simpl; auto).
  assert (Hs : In "scissors" valid_moves) by (simpl; auto).
  destruct (determine_winner_swap "rock" "scissors" Hr Hs) as ((H & _) & _).
  split; [reflexivity | apply H; reflexivity].
Defined.

(** X2: the member names of [Guestures] are the upper-cased values, so
    subscripting the enum with the upper-cased value of a member returns that
    member; the lookup returns a member only for its exact name, and the
    lower-case values themselves are not names. *)
Theorem Guestures_getitem_round_trip :
  (forall g, Guestures_getitem (upper (Guestures_value g)) = Some g) /\
  (forall g, Guestures_getitem (Guestures_value g) = None) /\
  (forall name g, Guestures_getitem name = Some g -> name = Guestures_name g) /\
  (forall m, In m valid_moves ->
     exists g, Guestures_getitem (upper m) = Some g /\
               Guestures_value g = m /\ g <> RESET).
Proof.
  split; [| split; [| split]].
  - intros []; reflexivity.
  - intros []; reflexivity.
  - intros name g H. unfold Guestures_getitem in H.
    apply find_some in H as [_ H]. apply String.eqb_eq in H. now symmetry.
  - apply valid_moves_cases;
      [exists ROCK | exists PAPER | exists SCISSORS]; repeat split; discriminate.
Qed.

Lemma Guestures_getitem_round_trip_witness :
  "SCISSORS" = Guestures_name SCISSORS.
Proof.
  apply (proj1 (proj2 (proj2 Guestures_getitem_round_trip)) "SCISSORS" SCISSORS).
  reflexivity.
Defined.

(** X3: the four poses are pairwise different: two gestures with the same
    joint values are the same gesture. *)
Theorem get_joint_values_injective (g1 g2 : Guestures) :
  get_joint_values g1 = get_joint_values g2 -> g1 = g2.
Proof.
  intro H.
  apply (f_equal (fun o => match o with
                           | Some jv => Some (pose_code jv)
                           | None => None
                           end)) in H.
  destruct g1, g2; try reflexivity; vm_compute in H; discriminate H.
Qed.

Lemma get_joint_values_injective_witness : PAPER = PAPER.
Proof. apply (get_joint_values_injective PAPER PAPER). reflexivity. Defined.

(** X4: [to_dict] loses nothing: it has the three field names as its keys, in
    the order of the fields, each key gives back its field, any other key is
    missing, and two poses with the same dict are the same pose. *)
Theorem to_dict_faithful (jv : JointValues) :
  map fst (to_dict jv) = ["gripper"; "wrist_yaw"; "wrist_roll"] /\
  dict_item (to_dict jv) "gripper" = Some (gripper jv) /\
  dict_item (to_dict jv) "wrist_yaw" = Some (wrist_yaw jv) /\
  dict_item (to_dict jv) "wrist_roll" = Some (wrist_roll jv) /\
  (forall key, ~ In key ["gripper"; "wrist_yaw"; "wrist_roll"] ->
     dict_item (to_dict jv) key = None) /\
  (forall jv', to_dict jv = to_dict jv' -> jv = jv').
Proof.
  split; [reflexivity |]. split; [reflexivity |]. split; [reflexivity |].
  split; [reflexivity |]. split.
  - intros key Hkey. unfold to_dict. cbn [dict_item].
    destruct (String.eqb_spec "gripper" key) as [<- | _];
      [exfalso; apply Hkey; left; reflexivity |].
    destruct (String.eqb_spec "wrist_yaw" key) as [<- | _];
      [exfalso; apply Hkey; right; left; reflexivity |].
    destruct (String.eqb_spec "wrist_roll" key) as [<- | _];
      [exfalso; apply Hkey; right; right; left; reflexivity |].
    reflexivity.
  - intros jv' H. destruct jv, jv'. unfold to_dict in H. cbn in H.
    injection H as -> -> ->. reflexivity.
Qed.

Lemma to_dict_faithful_witness :
  dict_item (to_dict (mkJointValues 100.0 0.0 1.57)) "lift" = None.
Proof.
  apply (proj1 (proj2 (proj2 (proj2 (proj2 (to_dict_faithful (mkJointValues 100.0 0.0 1.57))))))).
  simpl. intros [H | [H | [H | []]]]; discriminate H.
Defined.

(* ================================================================= *)
(** ** Further properties of the game object *)

Lemma bind_inv {A B : Type} (c : M A) (k : A -> M B) E w b w' :
  bind c k E w = (Ok b, w') ->
  exists a w1, c E w = (Ok a, w1) /\ k a E w1 = (Ok b, w').
Proof.
  unfold bind. destruct (c E w) as [[a | e] w1]; intro H; [| discriminate H].
  now exists a, w1.
Qed.

Lemma perform_inv {A : Type} (req : env -> nat -> event * A) E w x w' :
  perform req E w = (Ok x, w') ->
  exists n,
    x = snd (req E n) /\
    done_main (trace w') = done_main (trace w) ++ [fst (req E n)] /\
    attrs w' = attrs w.
Proof.
  unfold perform.
  set (w1 := run_thread (sched E (clock w)) E w).
  destruct (req E (clock w1)) as [ev y] eqn:Hreq.
  destruct (fault E MainThread (clock w1) ev); intro H; [discriminate H |].
  injection H as <- <-. exists (clock w1). rewrite Hreq. simpl.
  rewrite done_main_app. unfold w1.
  now rewrite run_thread_done_main, run_thread_attrs.
Qed.

Lemma call_inv (ev : event) E w w' :
  call ev E w = (Ok tt, w') ->
  done_main (trace w') = done_main (trace w) ++ [ev] /\ attrs w' = attrs w.
Proof.
  intro H. unfold call in H. apply perform_inv in H as (n & _ & Hd & Ha). auto.
Qed.

Lemma need_attr_inv (name : string) E w w' :
  need_attr name E w = (Ok tt, w') -> w' = w /\ has_attr name (attrs w) = true.
Proof.
  unfold need_attr, has_attr.
  destruct (existsb (String.eqb name) (attrs w)); intro H; [| discriminate H].
  injection H as <-. auto.
Qed.

Lemma on_attr_inv (name : string) (ev : event) E w w' :
  on_attr name ev E w = (Ok tt, w') ->
  done_main (trace w') = done_main (trace w) ++ [ev] /\
  attrs w' = attrs w /\
  has_attr name (attrs w) = true.
Proof.
  unfold on_attr. intro H.
  apply bind_inv in H as ([] & w1 & H1 & H).
  apply need_attr_inv in H1 as [-> Hhas].
  apply call_inv in H as [Hd Ha]. auto.
Qed.

(** X5: in every environment, [init_robot] returns only after [startup] has
    returned [True] and both wrist joints were fetched, and then the three
    attributes the other methods read are assigned: a game whose [init_robot]
    returned cannot raise [AttributeError] later. *)
Theorem init_robot_assigns (E : env) (w w' : world) :
  init_robot E w = (Ok tt, w') ->
  attrs w' = "wrist_roll" :: "wrist_yaw" :: "robot" :: attrs w /\
  ready (attrs w') /\
  done_main (trace w')
  = done_main (trace w)
    ++ [RobotCreate; RobotStartup true; GetJoint "wrist_yaw"; GetJoint "wrist_roll"].
Proof.
  unfold init_robot, robot_call. intro H.
  apply bind_inv in H as ([] & w1 & H1 & H). apply call_inv in H1 as [D1 A1].
  apply bind_inv in H as ([] & w2 & H2 & H). injection H2 as <-.
  apply bind_inv in H as ([] & w3 & H3 & H). apply need_attr_inv in H3 as [-> _].
  apply bind_inv in H as (started & w4 & H4 & H).
  apply perform_inv in H4 as (n & Hs & D4 & A4). simpl in Hs, D4, A4.
  destruct started; simpl negb in H; cbv iota in H; [| discriminate H].
  rewrite <- Hs in D4.
  apply bind_inv in H as ([] & w5 & H5 & H). apply on_attr_inv in H5 as (D5 & A5 & _).
  apply bind_inv in H as ([] & w6 & H6 & H). injection H6 as <-.
  apply bind_inv in H as ([] & w7 & H7 & H). apply on_attr_inv in H7 as (D7 & A7 & _).
  injection H as <-. simpl in *.
  assert (Hattrs : "wrist_roll" :: attrs w7 = "wrist_roll" :: "wrist_yaw" :: "robot" :: attrs w)
    by (rewrite A7, A5, A4, A1; reflexivity).
  split; [exact Hattrs |]. split.
  - rewrite Hattrs. repeat split; unfold has_attr; simpl; rewrite ?orb_true_r; reflexivity.
  - rewrite D7, D5, D4, D1. now rewrite <- !app_assoc.
Qed.

Lemma init_robot_assigns_witness :
  ready (attrs (snd (init_robot (calm 0 "rock") boot))).
Proof.
  apply (init_robot_assigns (calm 0 "rock") boot (snd (init_robot (calm 0 "rock") boot))).
  vm_compute. reflexivity.
Defined.

(* ================================================================= *)
(** ** Further properties of the session *)

Lemma try_except_handled {A : Type} (c : M A) handler (h : M A) E w e w' :
  c E w = (Raise e, w') -> handler e = Some h ->
  try_except c handler E w = h E w'.
Proof. unfold try_except. now intros -> ->. Qed.

Lemma try_except_unhandled {A : Type} (c : M A) handler E w e w' :
  c E w = (Raise e, w') -> handler e = None ->
  try_except c handler E w = (Raise e, w').
Proof. unfold try_except. now intros -> ->. Qed.

Section StartupFails.
Variable E : env.
Hypothesis HQ : quiet E.
Hypothesis Hstart : forall n, startup_ok E n = false.

Ltac run_with lem := erewrite bind_ok by (apply lem; auto).

Lemma init_robot_startup_fails tr :
  init_robot E (mkWorld tr [] [])
  = (Raise (ClickException "Failed to initialize the robot"),
     mkWorld (tr ++ by_main [RobotCreate; RobotStartup false]) [] ["robot"]).
Proof.
  unfold init_robot.
  run_with call_idle.
  run_with set_attr_eq.
  erewrite bind_ok by (apply need_attr_ok; reflexivity).
  run_with perform_idle. cbv beta iota zeta delta [fst snd].
  rewrite !Hstart. change (negb false) with true. cbv iota.
  unfold raise, by_main. cbn [map]. flatten_app. reflexivity.
Qed.

End StartupFails.

(** X6: when [startup] returns [False] (and no call raises), [play] makes no
    robot motion and plays no round, whatever the number of rounds: it echoes
    "Error: Failed to initialize the robot" in bold red, stops the robot, shuts
    down and kills the sound process, and returns normally. *)
Theorem play_startup_failure (N : Z) (E : env) :
  quiet E -> (forall n, startup_ok E n = false) ->
  play N E boot
  = (Ok tt,
     mkWorld (by_main (setup_calls
                       ++ [RobotCreate; RobotStartup false]
                       ++ error_calls "Failed to initialize the robot"
                       ++ teardown_calls))
             [] ["robot"]).
Proof.
  intros HQ Hstart. unfold play, boot.
  erewrite bind_ok by (apply call_idle; exact HQ).
  erewrite bind_ok by (apply call_idle; exact HQ).
  erewrite bind_ok by (apply RockPaperScissors_init_quiet; exact HQ).
  erewrite try_finally_ok.
  - reflexivity.
  - erewrite try_except_handled.
    + unfold echo. apply call_idle. exact HQ.
    + unfold play_body. apply bind_raise. apply init_robot_startup_fails; assumption.
    + reflexivity.
  - unfold play_teardown.
    erewrite bind_ok by (apply cleanup_quiet; [exact HQ | reflexivity]).
    erewrite bind_ok by (apply call_idle; exact HQ).
    rewrite call_idle by exact HQ.
    f_equal; f_equal; unfold setup_calls, error_calls, teardown_calls, by_main;
      rewrite ?map_app; cbn [map]; flatten_app; reflexivity.
Qed.

Lemma stalled_quiet : quiet stalled.
Proof. intros t n ev. reflexivity. Qed.

Lemma play_startup_failure_witness :
  play 3 stalled boot
  = (Ok tt,
     mkWorld (by_main (setup_calls
                       ++ [RobotCreate; RobotStartup false]
                       ++ error_calls "Failed to initialize the robot"
                       ++ teardown_calls))
             [] ["robot"]).
Proof.
  apply (play_startup_failure 3 stalled).
  - exact stalled_quiet.
  - intro n. reflexivity.
Defined.

(** X7: with a number of rounds of zero or less the loop body never runs:
    when no call raises, the session greets, plays no round, does not thank,
    and tears down. *)
Theorem play_no_rounds (N : Z) (E : env) :
  (N <= 0)%Z -> quiet E -> (forall n, startup_ok E n = true) ->
  play N E boot = (Ok tt, mkWorld (by_main (opening ++ teardown_calls)) [] robot_attrs).
Proof.
  intros HN HQ Hstart.
  destruct (play_quiet E HQ Hstart N) as (cycles & Hrun & Hshape).
  assert (Hrange : range 1 (N + 1) = []).
  { unfold range. replace (Z.to_nat (N + 1 - 1)) with 0 by lia. reflexivity. }
  rewrite Hrange in Hshape. inversion Hshape; subst.
  rewrite Hrun. unfold closing.
  replace (1 <? N)%Z with false by (symmetry; apply Z.ltb_ge; lia).
  simpl concat. unfold by_main. rewrite !map_app. reflexivity.
Qed.

Lemma play_no_rounds_witness :
  play (-2) (calm 0 "rock") boot
  = (Ok tt, mkWorld (by_main (opening ++ teardown_calls)) [] robot_attrs).
Proof.
  apply (play_no_rounds (-2) (calm 0 "rock")).
  - lia.
  - apply calm_quiet.
  - intro n. reflexivity.
Defined.

(** *** How [play] ends when the [try] suite raises *)

Lemma from_speech_done_main (seg : list entry) :
  forallb from_speech seg = true -> done_main seg = [].
Proof.
  induction seg as [| x seg IH]; simpl; [reflexivity |].
  rewrite andb_true_iff. intros [Hx Hs].
  destruct x as [[|] ev | [|] ev e]; simpl in *; try discriminate; auto.
Qed.

Lemma spared_calls (E : env) (evs : list event) : forall w,
  (forall ev, In ev evs -> forall n, fault E MainThread n ev = None) ->
  speechy w ->
  exists w',
    for_each evs call E w = (Ok tt, w') /\
    done_main (trace w') = done_main (trace w) ++ evs /\
    speechy w' /\
    attrs w' = attrs w.
Proof.
  induction evs as [| ev evs IH]; intros w Hev Hw.
  - exists w. simpl. rewrite app_nil_r. auto.
  - destruct (call_spared ev E w (Hev ev (or_introl eq_refl)) Hw)
      as (seg & w1 & Hc & Ht & Hseg & Hw1 & Ha1).
    destruct (IH w1 (fun ev' Hin => Hev ev' (or_intror Hin)) Hw1)
      as (w' & Hrun & Hd & Hw' & Ha').
    exists w'. simpl for_each. rewrite (bind_ok _ Hc).
    split; [exact Hrun |]. split; [| split; [exact Hw' | congruence]].
    rewrite Hd, Ht, !done_main_app, (from_speech_done_main _ Hseg).
    simpl. now rewrite <- app_assoc.
Qed.

Lemma issues_speak (text : string) : issues (speak text) (speak_body text).
Proof.
  unfold speak, speak_body. simpl for_each.
  apply issues_bind_one; [apply issues_call | intros _].
  apply (issues_bind (call _) (fun _ => ret tt) [_] []);
    [apply issues_call | intros _; apply issues_ret].
Qed.

Lemma issues_play_handler (e : exn) (h : M unit) :
  play_handler e = Some h -> issues h (handler_calls e).
Proof.
  destruct e; simpl; intro H; try discriminate H; injection H as <-; unfold echo.
  - apply issues_call.
  - apply issues_bind_one; [apply issues_call | intros _; apply issues_speak].
Qed.

Lemma issues_play_teardown : issues play_teardown teardown_calls.
Proof.
  unfold play_teardown, cleanup, robot_call, teardown_calls.
  apply (issues_bind _ _ [RobotStop; RclpyShutdown] [Getpgid; Killpg]).
  - apply (issues_bind (need_attr "robot") _ [] [RobotStop; RclpyShutdown]).
    + apply issues_need_attr. simpl. auto.
    + intros _. apply issues_bind_one;
        [apply issues_on_attr; simpl; auto | intros _; apply issues_call].
  - intros _. apply issues_bind_one; [apply issues_call | intros _; apply issues_call].
Qed.

Lemma issues_returned {A : Type} (c : M A) (full : list event) E w x w' :
  issues c full -> c E w = (Ok x, w') ->
  done_main (trace w') = done_main (trace w) ++ full /\ attrs w' = attrs w.
Proof.
  intros Hc Hrun. destruct (Hc E w) as (Ha & l & Hd & Hr).
  rewrite Hrun in *. simpl in *. subst l. auto.
Qed.

Lemma play_handler_spared (E : env) (e : exn) (h : M unit) w :
  (forall n ev, farewell_call ev = true -> fault E MainThread n ev = None) ->
  play_handler e = Some h -> speechy w ->
  exists w', h E w = (Ok tt, w') /\ speechy w'.
Proof.
  intros Hf Hh Hw.
  destruct e; simpl in Hh; try discriminate Hh; injection Hh as <-; unfold echo.
  - assert (He : forall n, fault E MainThread n
                     (Echo (click_style ("Error: " ++ message) "red" true) true) = None)
      by (intro n; apply Hf; reflexivity).
    destruct (call_spared _ E w He Hw) as (seg & w1 & Hc & _ & _ & Hw1 & _).
    now exists w1.
  - assert (He : forall n, fault E MainThread n
                     (Echo (plain (LF ++ "Game interrupted by user")) true) = None)
      by (intro n; apply Hf; reflexivity).
    destruct (call_spared _ E w He Hw) as (seg & w1 & Hc & _ & _ & Hw1 & _).
    destruct (spared_calls E (speak_body "Game interrupted. Goodbye!") w1)
      as (w2 & Hs & _ & Hw2 & _).
    + intros ev [<- | [<- | []]] n; apply Hf; reflexivity.
    + exact Hw1.
    + exists w2. rewrite (bind_ok _ Hc). auto.
Qed.

Section SessionEnds.
Variable N : Z.
Variable E : env.
Hypothesis Hsetup : forall n ev, n < 6 -> fault E MainThread n ev = None.
Hypothesis Hteardown : forall n ev, is_teardown ev = true -> fault E MainThread n ev = None.

Lemma after_setup_speechy : speechy after_setup.
Proof. reflexivity. Qed.

Lemma play_from_setup :
  play N E boot
  = try_finally (try_except (play_body N) play_handler) play_teardown E after_setup.
Proof. unfold play. now rewrite setup_spared by exact Hsetup. Qed.

Lemma play_teardown_returns w :
  speechy w -> has_attr "robot" (attrs w) = true ->
  exists w',
    play_teardown E w = (Ok tt, w') /\
    done_main (trace w') = done_main (trace w) ++ teardown_calls.
Proof.
  intros Hw Ha.
  destruct (play_teardown_spared E w Hteardown Hw Ha) as (seg & w' & Hrun & _).
  exists w'. split; [exact Hrun |].
  exact (proj1 (issues_returned _ _ E w tt w' issues_play_teardown Hrun)).
Qed.

End SessionEnds.

(** X8: an exception of the [try] suite that neither [except] clause matches
    (an actuator fault, say) is not swallowed: provided the teardown calls
    return, [play] makes exactly the four teardown calls after it and raises
    that same exception to its caller. *)
Theorem play_reraises (N : Z) (E : env) (e : exn) :
  (forall n ev, n < 6 -> fault E MainThread n ev = None) ->
  (forall n, fault E MainThread n RobotCreate = None) ->
  (forall n ev, is_teardown ev = true -> fault E MainThread n ev = None) ->
  fst (play_body N E after_setup) = Raise e ->
  play_handler e = None ->
  fst (play N E boot) = Raise e /\
  done_main (trace (snd (play N E boot)))
  = done_main (trace (snd (play_body N E after_setup))) ++ teardown_calls.
Proof.
  intros H1 H2 H3 Hbody Hh.
  rewrite (play_from_setup N E H1).
  destruct (keeps_play_body N E after_setup after_setup_speechy)
    as (seg & _ & Hsp & _).
  pose proof (body_has_robot N E after_setup H2 after_setup_speechy) as Hrob.
  destruct (play_body N E after_setup) as [r wb] eqn:Hrun. simpl in *. subst r.
  destruct (play_teardown_returns E H3 wb Hsp Hrob) as (wf & Hf & Hd).
  rewrite (try_finally_ok _ _ E after_setup (Raise e) wb wf
             (try_except_unhandled _ _ E after_setup e wb Hrun Hh) Hf).
  auto.
Qed.

Lemma play_reraises_witness :
  fst (play 3 gripper_fault boot) = Raise ActuatorFault /\
  done_main (trace (snd (play 3 gripper_fault boot)))
  = done_main (trace (snd (play_body 3 gripper_fault after_setup))) ++ teardown_calls.
Proof.
  apply (play_reraises 3 gripper_fault ActuatorFault);
    [ exact (proj1 gripper_fault_spares)
    | exact (proj1 (proj2 gripper_fault_spares))
    | exact (proj2 (proj2 gripper_fault_spares))
    | vm_compute; reflexivity
    | reflexivity ].
Defined.

(** X9: a [KeyboardInterrupt] or a [ClickException] of the [try] suite is
    swallowed: provided the calls of the matching [except] clause return and
    the teardown calls return, [play] makes the clause's calls (the error
    echo, or the interruption echo and the goodbye), then the four teardown
    calls, and returns normally.  Of the calls of the [try] suite only the
    constructor of the robot is asked to return: the exception may come from
    any other of them. *)
Theorem play_swallows (N : Z) (E : env) (e : exn) (h : M unit) :
  (forall n ev, n < 6 -> fault E MainThread n ev = None) ->
  (forall n, fault E MainThread n RobotCreate = None) ->
  (forall n ev, is_teardown ev = true -> fault E MainThread n ev = None) ->
  fst (play_body N E after_setup) = Raise e ->
  play_handler e = Some h ->
  fst (h E (snd (play_body N E after_setup))) = Ok tt ->
  fst (play N E boot) = Ok tt /\
  done_main (trace (snd (play N E boot)))
  = done_main (trace (snd (play_body N E after_setup)))
    ++ handler_calls e ++ teardown_calls.
Proof.
  intros H1 H2 H3 Hbody Hh Hreturns.
  rewrite (play_from_setup N E H1).
  destruct (keeps_play_body N E after_setup after_setup_speechy)
    as (seg & _ & Hsp & _).
  pose proof (body_has_robot N E after_setup H2 after_setup_speechy) as Hrob.
  destruct (play_body N E after_setup) as [r wb] eqn:Hrun. simpl in *. subst r.
  destruct (keeps_play_handler e h Hh E wb Hsp) as (segh & _ & Hsph & Hroh & _).
  specialize (Hroh Hrob).
  destruct (h E wb) as [rh wh] eqn:Hhrun. simpl in *. subst rh.
  destruct (issues_returned h _ E wb tt wh (issues_play_handler e h Hh) Hhrun)
    as [Hdh _].
  destruct (play_teardown_returns E H3 wh Hsph Hroh) as (wf & Hf & Hd).
  assert (Htry : try_except (play_body N) play_handler E after_setup = (Ok tt, wh))
    by (rewrite (try_except_handled _ _ h E after_setup e wb Hrun Hh); exact Hhrun).
  rewrite (try_finally_ok _ _ E after_setup (Ok tt) wh wf Htry Hf).
  simpl. split; [reflexivity |]. rewrite Hd, Hdh. now rewrite <- app_assoc.
Qed.

Lemma interrupted_spares :
  (forall n ev, n < 6 -> fault interrupted MainThread n ev = None) /\
  (forall n, fault interrupted MainThread n RobotCreate = None) /\
  (forall n ev, is_teardown ev = true -> fault interrupted MainThread n ev = None).
Proof.
  split; [| split].
  - intros n ev Hn. destruct ev; try reflexivity.
    cbv [interrupted fault]. destruct (Nat.eqb_spec n 100); [lia | reflexivity].
  - intros n. reflexivity.
  - intros n ev Hev. destruct ev; try reflexivity. discriminate Hev.
Qed.

Lemma play_swallows_witness :
  fst (play 3 interrupted boot) = Ok tt /\
  done_main (trace (snd (play 3 interrupted boot)))
  = done_main (trace (snd (play_body 3 interrupted after_setup)))
    ++ handler_calls KeyboardInterrupt ++ teardown_calls.
Proof.
  destruct interrupted_spares as (H1 & H2 & H3).
  apply (play_swallows 3 interrupted KeyboardInterrupt
           (echo (plain (LF ++ "Game interrupted by user")) ;;
            speak "Game interrupted. Goodbye!") H1 H2 H3).
  - vm_compute. reflexivity.
  - reflexivity.
  - vm_compute. reflexivity.
Defined.

(** *** When the robot was never constructed *)

Lemma call_idle_fails (ev : event) E tr a e :
  fault E MainThread (length tr) ev = Some e ->
  call ev E (mkWorld tr [] a)
  = (Raise e, mkWorld (tr ++ [Failed MainThread ev e]) [] a).
Proof.
  intro H. unfold call, perform.
  assert (Hrt : run_thread (sched E (clock (mkWorld tr [] a))) E (mkWorld tr [] a)
                = mkWorld tr [] a) by (destruct (sched E _); reflexivity).
  rewrite Hrt. unfold clock. simpl. now rewrite H.
Qed.

Lemma play_teardown_no_robot E w :
  has_attr "robot" (attrs w) = false ->
  play_teardown E w = (Raise (AttributeError "robot"), w).
Proof.
  intro H. unfold play_teardown, cleanup.
  apply bind_raise. apply bind_raise.
  unfold need_attr. unfold has_attr in H. now rewrite H.
Qed.

(** X10: [cleanup] reads [self.robot], which only [init_robot] assigns.  When
    the constructor of the robot raises (whatever it raises, and whether or
    not an [except] clause matches it), the [finally] clause fails at
    [if self.robot:]: [play] raises [AttributeError], and [robot.stop],
    [rclpy.shutdown] and [os.killpg] are never called. *)
Theorem play_without_robot (N : Z) (E : env) (e : exn) :
  (forall n ev, n < 6 -> fault E MainThread n ev = None) ->
  fault E MainThread 6 RobotCreate = Some e ->
  fst (play N E boot) = Raise (AttributeError "robot") /\
  filter teardown_entry (trace (snd (play N E boot))) = [].
Proof.
  intros H1 Hcreate.
  rewrite (play_from_setup N E H1).
  assert (Hbody : play_body N E after_setup
                  = (Raise e,
                     mkWorld (by_main setup_calls ++ [Failed MainThread RobotCreate e]) [] [])).
  { unfold play_body, init_robot, after_setup.
    apply bind_raise. apply bind_raise. apply call_idle_fails. exact Hcreate. }
  set (wb := mkWorld (by_main setup_calls ++ [Failed MainThread RobotCreate e]) [] []) in *.
  assert (Hwb : speechy wb) by reflexivity.
  assert (Htry : exists w',
             snd (try_except (play_body N) play_handler E after_setup) = w' /\
             attrs w' = [] /\
             filter teardown_entry (trace w') = []).
  { unfold try_except. rewrite Hbody.
    destruct (play_handler e) as [h |] eqn:Hh.
    - destruct (keeps_play_handler e h Hh E wb Hwb) as (seg & Htr & _ & _ & Hall & _).
      destruct (issues_play_handler e h Hh E wb) as (Ha & _).
      exists (snd (h E wb)). split; [reflexivity |]. split; [exact Ha |].
      rewrite Htr, filter_app. rewrite (proj1 (farewell_filter seg Hall)).
      reflexivity.
    - exists wb. repeat split. }
  destruct Htry as (w' & Hw' & Ha & Hfil).
  unfold try_finally.
  destruct (try_except (play_body N) play_handler E after_setup) as [r w0].
  simpl in Hw'. subst w0.
  rewrite (play_teardown_no_robot E w') by (rewrite Ha; reflexivity).
  simpl. auto.
Qed.

Lemma play_without_robot_witness :
  fst (play 2 constructor_fault boot) = Raise (AttributeError "robot") /\
  filter teardown_entry (trace (snd (play 2 constructor_fault boot))) = [].
Proof.
  apply (play_without_robot 2 constructor_fault ActuatorFault).
  - intros n ev Hn. destruct ev; try reflexivity.
    cbv [constructor_fault fault]. destruct (Nat.leb_spec 6 n); [lia | reflexivity].
  - reflexivity.
Defined.

(* ================================================================= *)
(** ** Further properties of the lift bob and the round *)

Lemma perform_outcome {A : Type} (req : env -> nat -> event * A) E w :
  (exists n w',
     perform req E w = (Ok (snd (req E n)), w') /\
     done_main (trace w') = done_main (trace w) ++ [fst (req E n)] /\
     attrs w' = attrs w) \/
  (exists e w',
     perform req E w = (Raise e, w') /\
     done_main (trace w') = done_main (trace w) /\
     attrs w' = attrs w).
Proof.
  unfold perform.
  set (w1 := run_thread (sched E (clock w)) E w).
  assert (Hd : done_main (trace w1) = done_main (trace w)) by apply run_thread_done_main.
  assert (Ha : attrs w1 = attrs w) by apply run_thread_attrs.
  destruct (req E (clock w1)) as [ev x] eqn:Hreq.
  destruct (fault E MainThread (clock w1) ev) as [e |].
  - right. exists e, (log (Failed MainThread ev e) w1). simpl.
    rewrite done_main_app, Hd. simpl. now rewrite app_nil_r.
  - left. exists (clock w1), (log (Done MainThread ev) w1). rewrite Hreq. simpl.
    rewrite done_main_app, Hd. auto.
Qed.

Lemma issues_thread_start (body : list event) : issues (thread_start body) [ThreadStart].
Proof.
  unfold thread_start.
  apply (issues_bind (call ThreadStart) _ [ThreadStart] []); [apply issues_call |].
  intros _ E w. simpl. split; [reflexivity |]. exists []. now rewrite app_nil_r.
Qed.

Lemma issues_thread_join : issues thread_join [ThreadJoin].
Proof.
  intros E w. unfold thread_join.
  set (w1 := run_thread (sched E (clock w)) E w).
  assert (Hd : done_main (trace w1) = done_main (trace w)) by apply run_thread_done_main.
  assert (Ha : attrs w1 = attrs w) by apply run_thread_attrs.
  destruct (fault E MainThread (clock w1) ThreadJoin) as [e |] eqn:Hf; simpl.
  - split; [exact Ha |]. exists []. rewrite done_main_app, Hd. simpl.
    split; [reflexivity |]. split; [now exists [ThreadJoin] |].
    intros (Hq & _). rewrite Hq in Hf. discriminate.
  - rewrite run_thread_attrs. split; [exact Ha |]. exists [ThreadJoin].
    rewrite done_main_app, run_thread_done_main, Hd. split; reflexivity.
Qed.

Lemma issues_after_reading (word : string) (h : float) :
  issues
    (robot_call (LiftMoveBy 0.1) ;;
     robot_call PushCommand ;;
     thread_start (speak_body word) ;;
     call (Sleep 0.5) ;;
     robot_call (LiftMoveTo h) ;;
     robot_call PushCommand ;;
     call (Sleep 0.5) ;;
     thread_join)
    [ LiftMoveBy 0.1; PushCommand; ThreadStart; Sleep 0.5; LiftMoveTo h; PushCommand;
      Sleep 0.5; ThreadJoin ].
Proof.
  unfold robot_call.
  repeat (apply issues_bind_one;
          [first [ apply issues_call
                 | apply issues_on_attr; simpl; auto
                 | apply issues_thread_start ]
          | intros _]).
  apply issues_thread_join.
Qed.

Lemma read_lift_outcome E w :
  (exists n w',
     perform (fun E n => (LiftStatusPos (lift_pos E n), lift_pos E n)) E w
     = (Ok (lift_pos E n), w') /\
     done_main (trace w') = done_main (trace w) ++ [LiftStatusPos (lift_pos E n)]) \/
  (exists e w',
     perform (fun E n => (LiftStatusPos (lift_pos E n), lift_pos E n)) E w
     = (Raise e, w') /\
     done_main (trace w') = done_main (trace w)).
Proof.
  destruct (perform_outcome
              (fun E n => (LiftStatusPos (lift_pos E n), lift_pos E n)) E w)
    as [(n & w1 & Hp & Hd & _) | (e & w1 & Hp & Hd & _)].
  - left. exists n, w1. simpl in Hp, Hd. auto.
  - right. exists e, w1. auto.
Qed.

(** X11: in every environment, with whatever was done before and however the
    speech thread runs or fails, the calls a lift bob has made on the main
    thread are a prefix of one fixed sequence: read the height [h], send the
    lift up by 0.1, flush, start the thread, sleep, send the lift to [h],
    flush, sleep, join.  So the lift is never sent anywhere but up by 0.1 and
    back to the height read, and never back before the move up was flushed. *)
Theorem move_arm_animation_prefix (word : string) (E : env) (w : world) :
  exists h l rest,
    done_main (trace (snd (move_arm_animation word E w))) = done_main (trace w) ++ l /\
    bob_calls h = l ++ rest.
Proof.
  unfold move_arm_animation.
  destruct (need_attr "robot" E w) as [[[] | e] w0] eqn:Hneed.
  - rewrite (bind_ok _ Hneed). apply need_attr_inv in Hneed as [-> _].
    destruct (read_lift_outcome E w) as [(n & w1 & Hp & Hd1) | (e & w1 & Hp & Hd1)].
    + rewrite (bind_ok _ Hp). cbv beta zeta.
      destruct (issues_after_reading word (lift_pos E n) E w1) as (_ & l & Hd & Hr).
      rewrite Hd, Hd1, <- app_assoc.
      destruct (fst (_ E w1)).
      * subst l. exists (lift_pos E n), (bob_calls (lift_pos E n)), [].
        rewrite app_nil_r. split; reflexivity.
      * destruct Hr as ((rest & Hrest) & _).
        exists (lift_pos E n), (LiftStatusPos (lift_pos E n) :: l), rest.
        split; [reflexivity |].
        unfold bob_calls, bob_head, bob_tail. simpl. now rewrite <- Hrest.
    + rewrite (bind_raise _ Hp). simpl snd. rewrite Hd1.
      exists 0%float, [], (bob_calls 0). rewrite app_nil_r. split; reflexivity.
  - rewrite (bind_raise _ Hneed).
    unfold need_attr in Hneed.
    destruct (existsb (String.eqb "robot") (attrs w)); [discriminate Hneed |].
    injection Hneed as _ <-.
    exists 0%float, [], (bob_calls 0). simpl. rewrite app_nil_r. split; reflexivity.
Qed.

Lemma thread_join_inv E w w' :
  thread_join E w = (Ok tt, w') -> pending w' = [].
Proof.
  unfold thread_join.
  set (w1 := run_thread (sched E (clock w)) E w).
  destruct (fault E MainThread (clock w1) ThreadJoin); intro H; [discriminate H |].
  injection H as <-. simpl. now apply run_thread_to_end.
Qed.

(** X12: in every environment, a lift bob that returns has joined its speech
    thread — the thread has run to its end or died — and has made all nine of
    its calls; no speech thread outlives a bob that returned. *)
Theorem move_arm_animation_joins (word : string) (E : env) (w w' : world) :
  move_arm_animation word E w = (Ok tt, w') ->
  pending w' = [] /\
  exists h, done_main (trace w') = done_main (trace w) ++ bob_calls h.
Proof.
  intro H. split.
  - unfold move_arm_animation in H.
    do 9 (apply bind_inv in H as (? & ? & _ & H)).
    now apply thread_join_inv in H.
  - unfold move_arm_animation in H.
    apply bind_inv in H as ([] & w0 & Hneed & H).
    apply need_attr_inv in Hneed as [-> _].
    apply bind_inv in H as (h & w1 & Hp & H).
    apply perform_inv in Hp as (n & Hh & Hd1 & _). simpl in Hh, Hd1. subst h.
    destruct (issues_returned _ _ E w1 tt w' (issues_after_reading word (lift_pos E n)) H)
      as [Hd _].
    exists (lift_pos E n). rewrite Hd, Hd1, <- app_assoc. reflexivity.
Qed.

Lemma move_arm_animation_joins_witness :
  pending (snd (move_arm_animation "Rock" hoarse (mkWorld [] [] robot_attrs))) = [].
Proof.
  apply (move_arm_animation_joins "Rock" hoarse (mkWorld [] [] robot_attrs)
           (snd (move_arm_animation "Rock" hoarse (mkWorld [] [] robot_attrs)))).
  vm_compute. reflexivity.
Defined.

(** X13: in every environment (calls may raise in the speech threads, the
    schedule is arbitrary), a round that returns returns one of the three
    valid moves, the one its draw call returned; that move names a gesture
    other than Reset, so the lookup of the gesture cannot have failed. *)
Theorem play_round_returns_drawn (E : env) (w w' : world) (m : string) :
  speechy w ->
  play_round E w = (Ok m, w') ->
  In m valid_moves /\
  (exists g, Guestures_getitem (upper m) = Some g /\
             Guestures_value g = m /\ g <> RESET) /\
  In (RandomChoice m) (done_main (trace w')).
Proof.
  intros Hw H. unfold play_round, random_choice, valid_moves, echo in H.
  apply bind_inv in H as (x & w1 & Hp & H).
  assert (Hsp1 : speechy w1).
  { match type of Hp with
    | perform ?req E w = _ =>
        destruct (keeps_perform not_teardown speech_not_teardown req
                    (fun _ _ => eq_refl) E w Hw) as (seg & _ & Hsp & _)
    end.
    now rewrite Hp in Hsp. }
  apply perform_inv in Hp as (n & Hx0 & Hd0 & _).
  assert (Hx : x = picked (draw E n)) by exact Hx0.
  assert (Hd1 : done_main (trace w1)
                = done_main (trace w) ++ [RandomChoice (picked (draw E n))])
    by exact Hd0.
  clear Hx0 Hd0. rewrite <- Hx in Hd1.
  assert (Hgrow : exists seg, trace w' = trace w1 ++ seg).
  { match type of H with
    | ?c E w1 = _ =>
        assert (Hk : keeps not_teardown c)
          by (repeat first
                [ apply keeps_make_gesture
                | apply keeps_move_arm_animation
                | keep_step
                | (unfold countdown; apply keeps_for_each; intro) ]);
        destruct (Hk E w1 Hsp1) as (seg & Htr & _)
    end.
    rewrite H in Htr. now exists seg. }
  destruct Hgrow as (seg & Htr).
  do 10 (apply bind_inv in H as (? & ? & _ & H)).
  injection H as Hm _. rewrite Hm in Hx, Hd1.
  destruct (picked_valid (draw E n)) as (Hin & g & Hg & Hv & Hne).
  rewrite <- Hx in Hin, Hg, Hv.
  split; [exact Hin |]. split; [now exists g |].
  rewrite Htr, done_main_app, Hd1. apply in_or_app. left.
  apply in_or_app. right. left. reflexivity.
Qed.

Lemma play_round_returns_drawn_witness :
  In "rock" valid_moves /\
  (exists g, Guestures_getitem (upper "rock") = Some g /\
             Guestures_value g = "rock" /\ g <> RESET) /\
  In (RandomChoice "rock")
     (done_main (trace (snd (play_round hoarse (mkWorld [] [] robot_attrs))))).
Proof.
  apply (play_round_returns_drawn hoarse (mkWorld [] [] robot_attrs)
           (snd (play_round hoarse (mkWorld [] [] robot_attrs))) "rock").
  - reflexivity.
  - vm_compute. reflexivity.
Defined.

(* ================================================================= *)
(** ** Further error behaviour *)

(** X14: only [init_robot] assigns [self.robot], [self.wrist_yaw] and
    [self.wrist_roll].  On a game object without them, [make_gesture],
    [move_arm_animation] and [cleanup] raise [AttributeError] for the first
    attribute they read, before any call is made: the world is unchanged, and
    in particular [cleanup] does not reach [rclpy.shutdown]. *)
Theorem methods_before_init_robot (E : env) (w : world) :
  (forall g, has_attr "wrist_yaw" (attrs w) = false ->
     make_gesture g E w = (Raise (AttributeError "wrist_yaw"), w)) /\
  (forall word, has_attr "robot" (attrs w) = false ->
     move_arm_animation word E w = (Raise (AttributeError "robot"), w)) /\
  (has_attr "robot" (attrs w) = false ->
     cleanup E w = (Raise (AttributeError "robot"), w)).
Proof.
  assert (Hneed : forall name, has_attr name (attrs w) = false ->
                  need_attr name E w = (Raise (AttributeError name), w)).
  { intros name H. unfold need_attr. unfold has_attr in H. now rewrite H. }
  split; [| split].
  - intros g H. destruct (get_joint_values_some g) as [jv Hjv].
    unfold make_gesture. rewrite Hjv. unfold of_option.
    rewrite (bind_ok _ (eq_refl : ret jv E w = (Ok jv, w))).
    apply bind_raise. unfold on_attr. apply bind_raise. now apply Hneed.
  - intros word H. unfold move_arm_animation. apply bind_raise. now apply Hneed.
  - intro H. unfold cleanup. apply bind_raise. now apply Hneed.
Qed.

Lemma methods_before_init_robot_witness :
  make_gesture ROCK (calm 0 "rock") boot = (Raise (AttributeError "wrist_yaw"), boot) /\
  move_arm_animation "Rock" (calm 0 "rock") boot = (Raise (AttributeError "robot"), boot) /\
  cleanup (calm 0 "rock") boot = (Raise (AttributeError "robot"), boot).
Proof.
  destruct (methods_before_init_robot (calm 0 "rock") boot) as (Hg & Hb & Hc).
  split; [apply Hg; reflexivity |]. split; [apply Hb; reflexivity | apply Hc; reflexivity].
Defined.

(** X15: the teardown is a plain sequence: in every environment the calls
    the [finally] clause has made are a prefix of [robot.stop],
    [rclpy.shutdown], [os.getpgid], [os.killpg], all four when it returns;
    and when [robot.stop] raises, the clause raises with it and the three
    other calls are not made, so the sound process is left running. *)
Theorem play_teardown_in_order (E : env) (w : world) :
  (exists l rest,
     done_main (trace (snd (play_teardown E w))) = done_main (trace w) ++ l /\
     teardown_calls = l ++ rest /\
     (fst (play_teardown E w) = Ok tt -> rest = [])) /\
  (forall e, pending w = [] -> has_attr "robot" (attrs w) = true ->
     fault E MainThread (clock w) RobotStop = Some e ->
     play_teardown E w = (Raise e, log (Failed MainThread RobotStop e) w)).
Proof.
  split.
  - destruct (issues_play_teardown E w) as (_ & l & Hd & Hr).
    destruct (fst (play_teardown E w)) as [[] | e].
    + subst l. exists teardown_calls, []. rewrite app_nil_r. auto.
    + destruct Hr as ((rest & Hrest) & _). exists l, rest.
      repeat split; auto. intro H. discriminate H.
  - intros e Hp Ha Hf. destruct w as [tr p a]. simpl in Hp, Ha. subst p.
    unfold play_teardown, cleanup, robot_call.
    apply bind_raise.
    rewrite (bind_ok _ (need_attr_ok "robot" E (mkWorld tr [] a) Ha)).
    apply bind_raise. rewrite on_attr_ok by exact Ha.
    unfold log. simpl. apply call_idle_fails. exact Hf.
Qed.

Lemma play_teardown_in_order_witness :
  play_teardown stop_fault (mkWorld [] [] robot_attrs)
  = (Raise ActuatorFault,
     log (Failed MainThread RobotStop ActuatorFault) (mkWorld [] [] robot_attrs)).
Proof.
  apply (proj2 (play_teardown_in_order stop_fault (mkWorld [] [] robot_attrs)));
    reflexivity.
Defined.

Lemma thread_start_idle_spared (body : list event) E tr a :
  fault E MainThread (length tr) ThreadStart = None ->
  thread_start body E (mkWorld tr [] a)
  = (Ok tt, mkWorld (tr ++ [Done MainThread ThreadStart]) body a).
Proof.
  intro H. unfold thread_start.
  now rewrite (bind_ok _ (call_idle_spared ThreadStart E tr a H)).
Qed.

Lemma call_unscheduled_fails (ev : event) E tr p a e :
  sched E (length tr) = 0 ->
  fault E MainThread (length tr) ev = Some e ->
  call ev E (mkWorld tr p a)
  = (Raise e, mkWorld (tr ++ [Failed MainThread ev e]) p a).
Proof.
  intros Hs Hf. unfold call, perform, clock. simpl trace. rewrite Hs.
  simpl run_thread. simpl trace. now rewrite Hf.
Qed.

(** X16: [join] is not in a [finally]: when the main thread is interrupted
    in the first [time.sleep(0.5)] of a lift bob, before the speech thread
    has run, the bob raises at once; the lift has been sent up and is not
    sent back, and the thread is left unjoined with its whole body still to
    run. *)
Theorem move_arm_animation_interrupted (word : string) (E : env) tr a (e : exn) :
  has_attr "robot" a = true ->
  (forall n ev, length tr <= n < length tr + 4 -> fault E MainThread n ev = None) ->
  sched E (length tr + 4) = 0 ->
  fault E MainThread (length tr + 4) (Sleep 0.5) = Some e ->
  move_arm_animation word E (mkWorld tr [] a)
  = (Raise e,
     mkWorld (tr ++ by_main (bob_head (lift_pos E (length tr)))
                 ++ [Failed MainThread (Sleep 0.5) e])
             (speak_body word) a).
Proof.
  intros Ha Hnone Hs Hf. unfold move_arm_animation, robot_call.
  rewrite (bind_ok _ (need_attr_ok "robot" E (mkWorld tr [] a) Ha)).
  erewrite bind_ok
    by (apply perform_idle_spared; apply Hnone; lia).
  cbv beta iota zeta delta [fst snd].
  erewrite bind_ok
    by (rewrite on_attr_ok by exact Ha; apply call_idle_spared; apply Hnone;
        rewrite !length_app; simpl; lia).
  erewrite bind_ok
    by (rewrite on_attr_ok by exact Ha; apply call_idle_spared; apply Hnone;
        rewrite !length_app; simpl; lia).
  erewrite bind_ok
    by (apply thread_start_idle_spared; apply Hnone; rewrite !length_app; simpl; lia).
  erewrite bind_raise
    by (apply call_unscheduled_fails; rewrite !length_app; simpl;
        [rewrite <- Hs | rewrite <- Hf]; f_equal; lia).
  unfold bob_head, by_main. cbn [map]. flatten_app. reflexivity.
Qed.

Lemma move_arm_animation_interrupted_witness :
  move_arm_animation "Rock" restless (mkWorld [] [] robot_attrs)
  = (Raise KeyboardInterrupt,
     mkWorld ([] ++ by_main (bob_head (lift_pos restless (length (@nil entry))))
                 ++ [Failed MainThread (Sleep 0.5) KeyboardInterrupt])
             (speak_body "Rock") robot_attrs).
Proof.
  apply (move_arm_animation_interrupted "Rock" restless [] robot_attrs KeyboardInterrupt).
  - reflexivity.
  - intros n ev Hn. destruct ev; try reflexivity.
    cbv [restless fault]. simpl in Hn. destruct (Nat.leb_spec 4 n); [lia | reflexivity].
  - reflexivity.
  - reflexivity.
Defined.
